(** * The handler test server ([graphql/handler/testserver/testserver.go])

    A shallow embedding of [New], [NewError] and the [TestServer] methods.

    The Go code builds closures over mutable locals ([ran],
    [initialResponse]) that block in a [select] over three channels.  The
    embedding is in two layers:

    - the closures are defunctionalised: a [ResponseHandler] value names the
      closure and carries the current value of its captured locals;
      [invoke] runs one call of the closure, given the [select] case that
      fired;
    - the channels, the blocked senders of [SendNextSubscriptionMessage] /
      [SendCompleteSubscriptionMessage], the context's cancellation and the
      timers are a labelled transition system ([step]) over [Sys]. *)

From Stdlib Require Import String Ascii List Bool Arith ZArith Lia.
Import ListNotations.
Open Scope string_scope.

(** ** Byte strings of the source *)

Definition dquote : string := String (ascii_of_nat 34) EmptyString.

(** [[]byte(`{"name":null}`)] *)
Definition data_name_null : string :=
  "{" ++ dquote ++ "name" ++ dquote ++ ":null}".

(** [[]byte(`{"name":"test"}`)] *)
Definition data_name_test : string :=
  "{" ++ dquote ++ "name" ++ dquote ++ ":" ++ dquote ++ "test" ++ dquote ++ "}".

(** [[]byte(`null`)] *)
Definition data_null : string := "null".

(** ** [strings.HasPrefix] and [strings.Contains] *)

Fixpoint HasPrefix (s prefix : string) : bool :=
  match prefix, s with
  | EmptyString, _ => true
  | String a prefix', String b s' => Ascii.eqb a b && HasPrefix s' prefix'
  | String _ _, EmptyString => false
  end.

Fixpoint Contains (s substr : string) : bool :=
  if HasPrefix s substr then true
  else match s with
       | EmptyString => false
       | String _ s' => Contains s' substr
       end.

(** ** Data model *)

(** [ast.Operation] is a string type with three named constants. *)
Definition Operation := string.
Definition Query : Operation := "query".
Definition Mutation : Operation := "mutation".
Definition Subscription : Operation := "subscription".

(** [gqlerror.Error], reduced to the fields the server touches. *)
Record Error := mkError { Message : string; Path : list string }.

(** [graphql.Response]; [HasNext] is a [*bool]. *)
Record Response := mkResponse {
  Data : string;
  HasNext : option bool;
  Errors : list Error
}.

(** [ast.FieldDefinition] and the schema loaded by [New]. *)
Record FieldDefinition := mkFieldDefinition {
  fd_Name : string;
  fd_Arguments : list (string * string);
  fd_Type : string
}.

Definition FieldList := list FieldDefinition.

Fixpoint ForName (l : FieldList) (name : string) : option FieldDefinition :=
  match l with
  | [] => None
  | f :: l' => if String.eqb (fd_Name f) name then Some f else ForName l' name
  end.

Definition Schema := list (string * FieldList).

Fixpoint Types (s : Schema) (name : string) : FieldList :=
  match s with
  | [] => []
  | (n, fs) :: s' => if String.eqb n name then fs else Types s' name
  end.

Definition schema : Schema :=
  [ ("Query",
      [ mkFieldDefinition "name" [] "String!";
        mkFieldDefinition "find" [("id", "Int!")] "String!" ]);
    ("Mutation", [ mkFieldDefinition "name" [] "String!" ]);
    ("Subscription", [ mkFieldDefinition "name" [] "String!" ]) ].

(** [ast.Field] inside [graphql.CollectedField]. *)
Record Field := mkField {
  Name : string;
  Alias : string;
  Definition_ : option FieldDefinition
}.

Record FieldContext := mkFieldContext {
  Object : string;
  Field_ : Field
}.

(** The part of [context.Context] the handlers read: the stack of field
    contexts, innermost first. *)
Record Ctx := mkCtx { fieldContexts : list FieldContext }.

Definition WithFieldContext (ctx : Ctx) (fc : FieldContext) : Ctx :=
  mkCtx (fc :: fieldContexts ctx).

Definition GetFieldContext (ctx : Ctx) : option FieldContext :=
  hd_error (fieldContexts ctx).

(** Values of type [any] returned by a resolver: a [*graphql.Response]
    (possibly nil) or something else. *)
Inductive any :=
| AnyResponse (p : option Response)
| AnyOther (s : string).

(** What the handlers can observe and change outside their own locals:
    [resolutions] logs the context of every run of the resolver body passed
    to [ResolverMiddleware]; [recorded] is the error list of the response
    context, appended to by [graphql.AddError]. *)
Record World := mkWorld {
  resolutions : list Ctx;
  recorded : list Error
}.

Definition M (A : Type) : Type := World -> A * World.

Definition ret {A} (a : A) : M A := fun w => (a, w).
Definition bind {A B} (m : M A) (k : A -> M B) : M B :=
  fun w => let (a, w') := m w in k a w'.

Notation "x <- m ;; k" := (bind m (fun x => k))
  (at level 61, m at next level, right associativity).

Definition Resolver := Ctx -> M (any * option string).

Record OperationDefinition := mkOperationDefinition {
  op_Operation : Operation
}.

Record OperationContext := mkOperationContext {
  RawQuery : string;
  Operation_ : OperationDefinition;
  ResolverMiddleware : Ctx -> Resolver -> M (any * option string)
}.

(** A call either returns or panics. *)
Inductive outcome (A : Type) :=
| Returned (a : A)
| Panicked (msg : string).
Arguments Returned {A} a.
Arguments Panicked {A} msg.

(** The case of a [select] that fired. *)
Inductive chan_event :=
| CtxDone               (* <-ctx.Done() *)
| Next                  (* <-next *)
| CompleteSubscription. (* <-completeSubscription *)

(** ** The closures returned by [ExecFunc] *)

Inductive ResponseHandler :=
| DeferHandler (initialResponse : bool)
| QueryHandler (ran : bool)
| SubscriptionHandler
| ErrorQueryHandler (ran : bool)
| OneShotHandler (resp : Response) (oneshot : bool).

(** Modelled from the spec: [graphql.ErrorResponse] (graphql/response.go is
    not among the sources): a response "carrying one ErrorEntry" with the
    given message. *)
Definition ErrorResponse (message : string) : Response :=
  mkResponse EmptyString None [mkError message []].

(** Modelled from the spec: [graphql.OneShot] (graphql/oneshot.go is not
    among the sources): "a Producer whose single invocation yields" the
    response, and "no further envelopes on subsequent invocations". *)
Definition OneShot (resp : Response) : ResponseHandler :=
  OneShotHandler resp false.

(** Modelled from the spec: [graphql.AddError] (graphql/context_response.go
    is not among the sources): "appends an ErrorEntry to the envelope
    currently being assembled", stamped with the path of the active field
    contexts. *)
Definition AddError (ctx : Ctx) (err : string) : M unit :=
  fun w =>
    (tt, mkWorld (resolutions w)
           (recorded w ++ [mkError err (rev (map (fun fc => Alias (Field_ fc))
                                                (fieldContexts ctx)))])).

(** The resolver body handed to [ResolverMiddleware] (line 90). *)
Definition resolver : Resolver :=
  fun ctx w =>
    ((AnyResponse (Some (mkResponse data_name_test None [])), None),
     mkWorld (resolutions w ++ [ctx]) (recorded w)).

Definition queryFieldContext : FieldContext :=
  mkFieldContext "Query"
    (mkField "name" "name" (ForName (Types schema "Query") "name")).

(** One call of a handler.  [ev] is the [select] case that fired; the
    handlers without a [select] ignore it. *)
Definition invoke (opCtx : OperationContext) (ctx : Ctx)
    (h : ResponseHandler) (ev : chan_event)
  : M (outcome (option Response) * ResponseHandler) :=
  match h with
  | DeferHandler initialResponse =>
      match ev with
      | CtxDone => ret (Returned None, h)
      | Next =>
          if initialResponse
          then ret (Returned (Some (mkResponse data_name_null (Some true) [])),
                    DeferHandler false)
          else ret (Returned (Some (mkResponse data_name_test (Some false) [])),
                    DeferHandler false)
      | CompleteSubscription => ret (Returned None, h)
      end
  | QueryHandler ran =>
      if ran then ret (Returned None, h)
      else
        let ctx' := WithFieldContext ctx queryFieldContext in
        r <- ResolverMiddleware opCtx ctx' resolver ;;
        match r with
        | (_, Some err) => ret (Panicked err, QueryHandler true)
        | (AnyResponse p, None) => ret (Returned p, QueryHandler true)
        | (AnyOther _, None) =>
            ret (Panicked "interface conversion", QueryHandler true)
        end
  | SubscriptionHandler =>
      match ev with
      | CtxDone => ret (Returned None, h)
      | Next => ret (Returned (Some (mkResponse data_name_test None [])), h)
      | CompleteSubscription => ret (Returned None, h)
      end
  | ErrorQueryHandler ran =>
      if ran then ret (Returned None, h)
      else
        _ <- AddError ctx "resolver error" ;;
        ret (Returned (Some (mkResponse data_null None [])),
             ErrorQueryHandler true)
  | OneShotHandler resp oneshot =>
      if oneshot then ret (Returned None, h)
      else ret (Returned (Some resp), OneShotHandler resp true)
  end.

(** [ExecFunc] of [New] (lines 42-116). *)
Definition New_ExecFunc (opCtx : OperationContext) : ResponseHandler :=
  let op := op_Operation (Operation_ opCtx) in
  if String.eqb op Query then
    if Contains (RawQuery opCtx) "@defer" then DeferHandler true
    else QueryHandler false
  else if String.eqb op Mutation then
    OneShot (ErrorResponse "mutations are not supported")
  else if String.eqb op Subscription then
    SubscriptionHandler
  else
    OneShot (ErrorResponse "unsupported GraphQL operation").

(** [ExecFunc] of [NewError] (lines 143-167). *)
Definition NewError_ExecFunc (opCtx : OperationContext) : ResponseHandler :=
  let op := op_Operation (Operation_ opCtx) in
  if String.eqb op Query then ErrorQueryHandler false
  else if String.eqb op Mutation then
    OneShot (ErrorResponse "mutations are not supported")
  else if String.eqb op Subscription then
    OneShot (ErrorResponse "subscription are not supported")
  else
    OneShot (ErrorResponse "unsupported GraphQL operation").

(** The host calls a handler once per element of [evs]; the results are
    collected in call order. *)
Fixpoint drive (opCtx : OperationContext) (ctx : Ctx) (h : ResponseHandler)
    (evs : list chan_event)
  : M (list (outcome (option Response)) * ResponseHandler) :=
  match evs with
  | [] => ret ([], h)
  | ev :: evs' =>
      r <- invoke opCtx ctx h ev ;;
      rs <- drive opCtx ctx (snd r) evs' ;;
      ret (fst r :: fst rs, snd rs)
  end.

(** Modelled from the spec: the wrapper the executor puts around a handler
    (graphql/executor is not among the sources): each call runs with a fresh
    response context, and "errors recorded via AddError during that window
    are merged into the Envelope's error list, with the data payload still
    emitted". *)
Definition dispatch (opCtx : OperationContext) (ctx : Ctx)
    (h : ResponseHandler) (ev : chan_event)
  : M (outcome (option Response) * ResponseHandler) :=
  fun w =>
    let (r, w1) := invoke opCtx ctx h ev (mkWorld (resolutions w) []) in
    match fst r with
    | Returned (Some resp) =>
        ((Returned (Some (mkResponse (Data resp) (HasNext resp)
                            (Errors resp ++ recorded w1))), snd r), w1)
    | _ => (r, w1)
    end.

(** ** [TestServer]: the complexity knob

    The two channels of the struct live in [Sys] below. *)

Record TestServer := mkTestServer { complexity : Z }.

(** [New] and [NewError] leave [complexity] at its zero value. *)
Definition New : TestServer := mkTestServer 0.

Definition SetCalculatedComplexity (s : TestServer) (c : Z) : TestServer :=
  mkTestServer c.

Definition ComplexityFunc (srv : TestServer) (ctx : Ctx)
    (typeName fieldName : string) (childComplexity : Z)
    (args : list (string * any)) : Z * bool :=
  (complexity srv, true).

(** ** Channels, blocked senders and timers *)

(** [time.Duration] counts nanoseconds. *)
Definition Second : N := 1000000000.

Inductive chan := next | completeSubscription.

Definition chan_eqb (a b : chan) : bool :=
  match a, b with
  | next, next | completeSubscription, completeSubscription => true
  | _, _ => false
  end.

Definition recv (c : chan) : chan_event :=
  match c with
  | next => Next
  | completeSubscription => CompleteSubscription
  end.

Definition WARNING : string := "WARNING: no active subscription".

(** One operation in flight.  [senders] are the calls of
    [SendNextSubscriptionMessage] / [SendCompleteSubscriptionMessage] blocked
    in their [select], oldest first, each with the instant its
    [time.After(1 * time.Second)] fires.  [suspended] says that a call of the
    handler is blocked in its [select].  [delivered] collects what the
    handler calls returned and [stdout] what [fmt.Println] wrote. *)
Record Sys := mkSys {
  handler : ResponseHandler;
  world : World;
  ctxDone : bool;
  suspended : bool;
  senders : list (chan * N);
  now : N;
  delivered : list (outcome (option Response));
  stdout : list string
}.

Inductive label :=
| Call (choice : chan_event)  (* the host calls the handler; [choice] is the
                                 case Go picks when several are ready *)
| Send (c : chan)             (* a driver starts a send on [c] *)
| Cancel                      (* the operation's context is canceled *)
| Advance (d : N).            (* [d] nanoseconds pass *)

Definition SendNextSubscriptionMessage : label := Send next.
Definition SendCompleteSubscriptionMessage : label := Send completeSubscription.

(** Does the closure block in a [select]? *)
Definition selects (h : ResponseHandler) : bool :=
  match h with
  | DeferHandler _ | SubscriptionHandler => true
  | _ => false
  end.

Definition waits_on (c : chan) (p : chan * N) : bool := chan_eqb (fst p) c.

Definition ready (s : Sys) (ev : chan_event) : bool :=
  match ev with
  | CtxDone => ctxDone s
  | Next => existsb (waits_on next) (senders s)
  | CompleteSubscription => existsb (waits_on completeSubscription) (senders s)
  end.

(** Remove the oldest sender blocked on [c]. *)
Fixpoint dequeue (c : chan) (l : list (chan * N)) : list (chan * N) :=
  match l with
  | [] => []
  | p :: l' => if waits_on c p then l' else p :: dequeue c l'
  end.

Definition after_recv (ev : chan_event) (l : list (chan * N))
  : list (chan * N) :=
  match ev with
  | CtxDone => l
  | Next => dequeue next l
  | CompleteSubscription => dequeue completeSubscription l
  end.

Definition expired (t : N) (p : chan * N) : bool := (snd p <=? t)%N.
Definition pending (t : N) (p : chan * N) : bool := negb (expired t p).

Section System.

Variable opCtx : OperationContext.
Variable ctx : Ctx.

(** The handler's call completes with the [select] case [ev]. *)
Definition fire (s : Sys) (ev : chan_event) (l : list (chan * N)) : Sys :=
  let (r, w) := invoke opCtx ctx (handler s) ev (world s) in
  mkSys (snd r) w (ctxDone s) false l (now s)
        (delivered s ++ [fst r]) (stdout s).

(** One transition, [None] when the label cannot happen in [s].
    - [Call]: the handler is never called while a call of it is running.  A
      closure with a [select] takes a ready case if there is one ([choice]
      must be ready then) and blocks otherwise; the other closures return
      at once.
    - [Send]: the channels are unbuffered.  If a call is blocked in its
      [select] the value is handed over and that call completes with the
      matching case; otherwise the sender blocks until a receiver comes or
      its one-second timer fires.
    - [Cancel]: closes [ctx.Done()], which wakes a blocked call.
    - [Advance]: every blocked sender whose timer has fired prints the
      warning and returns. *)
Definition step (s : Sys) (l : label) : option Sys :=
  match l with
  | Call choice =>
      if suspended s then None
      else if selects (handler s) then
        if ready s choice then Some (fire s choice (after_recv choice (senders s)))
        else if ready s CtxDone || ready s Next || ready s CompleteSubscription
        then None
        else Some (mkSys (handler s) (world s) (ctxDone s) true (senders s)
                         (now s) (delivered s) (stdout s))
      else Some (fire s choice (senders s))
  | Send c =>
      if suspended s then Some (fire s (recv c) (senders s))
      else Some (mkSys (handler s) (world s) (ctxDone s) false
                       (senders s ++ [(c, (now s + Second)%N)])
                       (now s) (delivered s) (stdout s))
  | Cancel =>
      let s' := mkSys (handler s) (world s) true (suspended s) (senders s)
                      (now s) (delivered s) (stdout s) in
      if suspended s then Some (fire s' CtxDone (senders s)) else Some s'
  | Advance d =>
      let t := (now s + d)%N in
      Some (mkSys (handler s) (world s) (ctxDone s) (suspended s)
                  (filter (pending t) (senders s)) t (delivered s)
                  (stdout s ++ map (fun _ => WARNING)
                                   (filter (expired t) (senders s))))
  end.

Fixpoint steps (s : Sys) (ls : list label) : option Sys :=
  match ls with
  | [] => Some s
  | l :: ls' =>
      match step s l with
      | Some s' => steps s' ls'
      | None => None
      end
  end.

End System.

(** A fresh operation: handler just returned by [ExecFunc], nothing sent. *)
Definition start (h : ResponseHandler) : Sys :=
  mkSys h (mkWorld [] []) false false [] 0%N [] [].

(** ** Notions used in the statements, and sample operations *)

(** The three responses the handlers of [New] build themselves. *)
Definition initialPart : Response := mkResponse data_name_null (Some true) [].
Definition finalPart : Response := mkResponse data_name_test (Some false) [].
Definition message : Response := mkResponse data_name_test None [].

(** Handlers that keep an "already ran" flag. *)
Definition one_shot (h : ResponseHandler) : bool := negb (selects h).

(** Number of [Next] cases in a run. *)
Definition nexts (evs : list chan_event) : nat :=
  length (filter (fun ev => match ev with Next => true | _ => false end) evs).

(** Number of responses among the results of a run. *)
Definition envelopes (rs : list (outcome (option Response))) : nat :=
  length (filter (fun r => match r with Returned (Some _) => true | _ => false end) rs).

Definition passthrough : Ctx -> Resolver -> M (any * option string) :=
  fun ctx next => next ctx.

Definition deferQuery : OperationContext :=
  mkOperationContext "query { ... @defer { name } }"
    (mkOperationDefinition Query) passthrough.

Definition plainQuery : OperationContext :=
  mkOperationContext "query { name }" (mkOperationDefinition Query) passthrough.

Definition subscription : OperationContext :=
  mkOperationContext "subscription { name }"
    (mkOperationDefinition Subscription) passthrough.

Definition mutation : OperationContext :=
  mkOperationContext "mutation { name }"
    (mkOperationDefinition Mutation) passthrough.

Definition background : Ctx := mkCtx [].
Definition w0 : World := mkWorld [] [].

(** A handler with its "already ran" flag set. *)
Definition closed (h : ResponseHandler) : bool :=
  match h with
  | QueryHandler true | ErrorQueryHandler true | OneShotHandler _ true => true
  | _ => false
  end.

Definition answer (ev : chan_event) : outcome (option Response) :=
  match ev with
  | Next => Returned (Some message)
  | _ => Returned None
  end.

(** The driver of a stream: send one [Next], then the host calls the
    handler again, [n] times over. *)
Fixpoint pacing (n : nat) : list label :=
  match n with
  | O => []
  | S n' => SendNextSubscriptionMessage :: Call CtxDone :: pacing n'
  end.

Definition suspendedDefer : Sys :=
  mkSys (DeferHandler true) w0 false true [] 0%N [] [].

Definition errorQuery : OperationContext :=
  mkOperationContext "query { name }" (mkOperationDefinition Query) passthrough.

Definition is_call (l : label) : bool :=
  match l with Call _ => true | _ => false end.

(** Time that passes along a list of labels. *)
Fixpoint elapsed (ls : list label) : N :=
  match ls with
  | [] => 0
  | Advance d :: ls' => d + elapsed ls'
  | _ :: ls' => elapsed ls'
  end.

(** While no call of the handler reaches its [select], a send started on [c]
    in state [s0] with deadline [dl] is either still blocked before its
    deadline, or has printed its warning and is gone; the handler is
    untouched meanwhile. *)
Definition unanswered (s0 : Sys) (c : chan) (dl : N) (cur : Sys) : Prop :=
  suspended cur = false /\ handler cur = handler s0 /\
  world cur = world s0 /\ delivered cur = delivered s0 /\
  exists k,
    stdout cur = (stdout s0 ++ repeat WARNING k)%list /\
    ((In (c, dl) (senders cur) /\ (now cur < dl)%N) \/
     (1 <= k /\ ~ In (c, dl) (senders cur) /\ (dl <= now cur)%N)).

(** A call blocked in its [select] has no ready case. *)
Definition well_formed (s : Sys) : Prop :=
  suspended s = true ->
  selects (handler s) = true /\ ctxDone s = false /\ senders s = [].

From Stdlib Require Import Sorting.Permutation Sorting.Sorted.

(** ** Further notions for runs of the handlers *)


(** Number of sends started on [c] along a list of labels. *)
Definition sends_on (c : chan) (ls : list label) : nat :=
  length (filter (fun l => match l with
                           | Send c' => chan_eqb c' c
                           | _ => false
                           end) ls).

(** What a send with deadline [dl], started in [s0], has come to in [cur]:
    still blocked before its deadline, or gone with its warning printed. *)
Definition timed (s0 : Sys) (c : chan) (dl : N) (cur : Sys) : Prop :=
  exists k,
    stdout cur = (stdout s0 ++ repeat WARNING k)%list /\
    ((In (c, dl) (senders cur) /\ (now cur < dl)%N) \/
     (1 <= k /\ ~ In (c, dl) (senders cur) /\ (dl <= now cur)%N)).

(** What a run has to account for: responses delivered, senders still
    blocked, warnings printed. *)
Definition accounted (s : Sys) : nat :=
  envelopes (delivered s) + length (senders s) + length (stdout s).

(** A query whose resolver middleware fails. *)
Definition failingQuery : OperationContext :=
  mkOperationContext "query { name }" (mkOperationDefinition Query)
    (fun _ _ => ret (AnyResponse None, Some "boom")).

(** ** Generated enums ([codegen/testserver/singlefile/models-gen.go]) *)

(** A value of type [any] handed to [UnmarshalGQL]. *)
Inductive input_value :=
| InString (s : string)
| InInt (z : Z)
| InBool (b : bool)
| InNil.

(** [type EnumTest string] *)
Definition EnumTest := string.
Definition EnumTestOk : EnumTest := "OK".
Definition EnumTestNg : EnumTest := "NG".
Definition AllEnumTest : list EnumTest := [EnumTestOk; EnumTestNg].

Definition EnumTest_IsValid (e : EnumTest) : bool :=
  if String.eqb e EnumTestOk then true
  else if String.eqb e EnumTestNg then true
  else false.

Definition EnumTest_String (e : EnumTest) : string := e.

(** Methods with a pointer receiver return the new value of [*e] beside
    their error. *)
Definition EnumTest_UnmarshalGQL (e : EnumTest) (v : input_value)
  : EnumTest * option string :=
  match v with
  | InString str =>
      if EnumTest_IsValid str then (str, None)
      else (str, Some (str ++ " is not a valid EnumTest"))
  | _ => (e, Some "enums must be strings")
  end.

(** [type Status string] *)
Definition Status := string.
Definition StatusOk : Status := "OK".
Definition StatusError : Status := "ERROR".
Definition AllStatus : list Status := [StatusOk; StatusError].

Definition Status_IsValid (e : Status) : bool :=
  if String.eqb e StatusOk then true
  else if String.eqb e StatusError then true
  else false.

Definition Status_String (e : Status) : string := e.

Definition Status_UnmarshalGQL (e : Status) (v : input_value)
  : Status * option string :=
  match v with
  | InString str =>
      if Status_IsValid str then (str, None)
      else (str, Some (str ++ " is not a valid Status"))
  | _ => (e, Some "enums must be strings")
  end.

Section Strconv.

(** [strconv.Quote] and [strconv.Unquote] ([inl] the string, [inr] the
    error) of the Go library. *)
Variable Quote : string -> string.
Variable Unquote : string -> string + string.

(** The writer is the bytes written to it so far. *)
Definition EnumTest_MarshalGQL (e : EnumTest) (w : string) : string :=
  w ++ Quote (EnumTest_String e).

Definition EnumTest_UnmarshalJSON (e : EnumTest) (b : string)
  : EnumTest * option string :=
  match Unquote b with
  | inr err => (e, Some err)
  | inl s => EnumTest_UnmarshalGQL e (InString s)
  end.

Definition EnumTest_MarshalJSON (e : EnumTest) : string * option string :=
  (EnumTest_MarshalGQL e EmptyString, None).

Definition Status_MarshalGQL (e : Status) (w : string) : string :=
  w ++ Quote (Status_String e).

Definition Status_UnmarshalJSON (e : Status) (b : string)
  : Status * option string :=
  match Unquote b with
  | inr err => (e, Some err)
  | inl s => Status_UnmarshalGQL e (InString s)
  end.

Definition Status_MarshalJSON (e : Status) : string * option string :=
  (Status_MarshalGQL e EmptyString, None).

End Strconv.

(** Quoting for strings that need no escape: the text between two double
    quotes. *)
Definition quote_plain (s : string) : string := dquote ++ s ++ dquote.

Fixpoint strip_closing (s : string) : option string :=
  match s with
  | EmptyString => None
  | String a EmptyString =>
      if Ascii.eqb a (ascii_of_nat 34) then Some EmptyString else None
  | String a s' => option_map (String a) (strip_closing s')
  end.

Definition unquote_plain (s : string) : string + string :=
  match s with
  | String a s' =>
      if Ascii.eqb a (ascii_of_nat 34) then
        match strip_closing s' with
        | Some body => inl body
        | None => inr "invalid syntax"
        end
      else inr "invalid syntax"
  | EmptyString => inr "invalid syntax"
  end.

(** ** [buildInterface] ([codegen/interface.go]) *)

(** [*ast.Definition], reduced to the fields [buildInterface] reads. *)
Record TypeDef := mkTypeDef {
  td_Name : string;
  td_Interfaces : list string
}.

(** [>] on Go strings compares bytes lexicographically. *)
Definition string_gtb (a b : string) : bool :=
  match String.compare a b with
  | Gt => true
  | _ => false
  end.

(** The [less] closure handed to [sort.SliceStable] (lines 47-55). *)
Definition implementor_less (a b : TypeDef) : bool :=
  if negb (Nat.eqb (length (td_Interfaces a)) (length (td_Interfaces b)))
  then Nat.ltb (length (td_Interfaces b)) (length (td_Interfaces a))
  else string_gtb (td_Name a) (td_Name b).

(** [sort.SliceStable]: a stable sort, here by insertion.  An element goes
    in front of the first one that is not strictly before it. *)
Fixpoint insert_stable {A} (less : A -> A -> bool) (x : A) (l : list A)
  : list A :=
  match l with
  | [] => [x]
  | y :: l' => if less y x then y :: insert_stable less x l'
               else x :: y :: l'
  end.

Fixpoint SliceStable {A} (less : A -> A -> bool) (l : list A) : list A :=
  match l with
  | [] => []
  | x :: l' => insert_stable less x (SliceStable less l')
  end.

(** What [buildInterface] returns: the interface, an error, or a panic. *)
Inductive built (A : Type) :=
| Built (a : A)
| BuildError (msg : string)
| BuildPanic (msg : string).
Arguments Built {A} a.
Arguments BuildError {A} msg.
Arguments BuildPanic {A} msg.

Section BuildInterface.

(** [types.Type] and [*types.Interface] of go/types, the binder, the config
    and the schema are taken as given. *)
Variable GoType : Type.
Variable GoInterface : Type.
Variable TypeString : GoType -> string.
Variable NewPointer : GoType -> GoType.
Variable Implements : GoType -> GoInterface -> bool.
Variable IsInterface : GoType -> bool.
Variable DefaultUserObject : string -> GoType + string.
Variable UserDefined : string -> bool.
Variable findGoInterface : GoType -> option GoInterface * option string.
Variable findGoNamedType : GoType -> option GoType * option string.
Variable GetPossibleTypes : TypeDef -> list TypeDef.

Record InterfaceImplementor := mkInterfaceImplementor {
  ii_Definition : TypeDef;
  ii_Type : GoType;
  TakeRef : bool
}.

Record Interface := mkInterface {
  i_Definition : TypeDef;
  i_Type : GoType;
  Implementors : list InterfaceImplementor;
  InTypemap : bool
}.

(** The body of the loop over the implementors (lines 57-94): the entries
    appended for one implementor, or the error returned. *)
Definition implementor_entries (interfaceType : GoInterface) (iType : GoType)
    (implementor : TypeDef) : list InterfaceImplementor + string :=
  match DefaultUserObject (td_Name implementor) with
  | inr _ => inr (td_Name implementor ++ " has no backing go type")
  | inl obj =>
      match findGoNamedType obj with
      | (_, Some err) =>
          inr ("can not find backing go type " ++ TypeString obj ++ ": " ++ err)
      | (None, None) =>
          inr ("can not find backing go type " ++ TypeString obj)
      | (Some implementorType, None) =>
          let byValue :=
            if Implements implementorType interfaceType
            then [mkInterfaceImplementor implementor obj
                    (negb (IsInterface obj))]
            else [] in
          let byPointer :=
            if Implements (NewPointer implementorType) interfaceType
            then [mkInterfaceImplementor implementor (NewPointer obj) false]
            else [] in
          if Implements implementorType interfaceType
             || Implements (NewPointer implementorType) interfaceType
          then inl (byValue ++ byPointer)%list
          else inr (TypeString implementorType
                      ++ " does not satisfy the interface "
                      ++ TypeString iType)
      end
  end.

Fixpoint implementors_loop (interfaceType : GoInterface) (iType : GoType)
    (implementors : list TypeDef) (acc : list InterfaceImplementor)
  : list InterfaceImplementor + string :=
  match implementors with
  | [] => inl acc
  | implementor :: rest =>
      match implementor_entries interfaceType iType implementor with
      | inr err => inr err
      | inl es => implementors_loop interfaceType iType rest (acc ++ es)
      end
  end.

Definition buildInterface (typ : TypeDef) : built Interface :=
  match DefaultUserObject (td_Name typ) with
  | inr err => BuildPanic err
  | inl obj =>
      match findGoInterface obj with
      | (Some interfaceType, None) =>
          match implementors_loop interfaceType obj
                  (SliceStable implementor_less (GetPossibleTypes typ)) [] with
          | inl impls =>
              Built (mkInterface typ obj impls (UserDefined (td_Name typ)))
          | inr err => BuildError err
          end
      | _ => BuildError (TypeString obj ++ " is not an interface")
      end
  end.

(** An implementor the loop accepts: it has a backing named type that
    satisfies the interface by value or by pointer. *)
Definition satisfies (interfaceType : GoInterface) (d : TypeDef) : Prop :=
  exists obj named,
    DefaultUserObject (td_Name d) = inl obj /\
    findGoNamedType obj = (Some named, None) /\
    Implements named interfaceType
      || Implements (NewPointer named) interfaceType = true.

End BuildInterface.

(** Two definitions the comparison cannot tell apart. *)
Definition same_rank (a b : TypeDef) : bool :=
  negb (implementor_less a b) && negb (implementor_less b a).

(** A small type universe for [buildInterface]: types are named by strings,
    every name has a backing named type, and a type satisfies an interface
    when the table says so. *)
Definition catDef : TypeDef := mkTypeDef "Cat" ["Animal"].
Definition dogDef : TypeDef := mkTypeDef "Dog" ["Animal"].
Definition horseDef : TypeDef := mkTypeDef "Horse" ["Mammalian"; "Animal"].
Definition animalDef : TypeDef := mkTypeDef "Animal" [].

Definition sample_pointer (t : string) : string := "*" ++ t.
Definition sample_implements (t i : string) : bool :=
  String.eqb i "Animal" &&
  existsb (String.eqb t)
    ["Cat"; "Dog"; "Horse"; "*Cat"; "*Dog"; "*Horse"].
Definition sample_is_interface (t : string) : bool := String.eqb t "Animal".
Definition sample_object (name : string) : string + string := inl name.
Definition sample_user_defined (name : string) : bool := false.
Definition sample_interface (t : string) : option string * option string :=
  if sample_is_interface t then (Some t, None) else (None, None).
Definition sample_named (t : string) : option string * option string :=
  (Some t, None).
Definition sample_possible (d : TypeDef) : list TypeDef :=
  if String.eqb (td_Name d) "Animal" then [catDef; dogDef; horseDef] else [].

Definition sample_build : TypeDef -> built (Interface string) :=
  buildInterface string string (fun t => t) sample_pointer sample_implements
    sample_is_interface sample_object sample_user_defined sample_interface
    sample_named sample_possible.

Definition builtAnimal : Interface string :=
  mkInterface string animalDef "Animal"
    [ mkInterfaceImplementor string horseDef "Horse" true;
      mkInterfaceImplementor string horseDef "*Horse" false;
      mkInterfaceImplementor string dogDef "Dog" true;
      mkInterfaceImplementor string dogDef "*Dog" false;
      mkInterfaceImplementor string catDef "Cat" true;
      mkInterfaceImplementor string catDef "*Cat" false ]
    false.

(** ** The schema check of the config test (second part of
    [testserver.go]) *)

(** [s[n:]] *)
Fixpoint skip (n : nat) (s : string) : string :=
  match n, s with
  | O, _ => s
  | S n', String _ s' => skip n' s'
  | S _, EmptyString => EmptyString
  end.

(** [strings.Cut]: split around the first occurrence of [sep]. *)
Fixpoint Cut (s sep : string) : string * string * bool :=
  if HasPrefix s sep then (EmptyString, skip (String.length sep) s, true)
  else match s with
       | EmptyString => (s, EmptyString, false)
       | String a s' =>
           let '(before, after, found) := Cut s' sep in
           if found then (String a before, after, true)
           else (s, EmptyString, false)
       end.

(** [reflect.Type], as far as the helpers look at it: its kind, its element
    type, and for a struct its name; the fields of a struct are found
    through its name, so that struct types may refer to each other. *)
Inductive rtype :=
| RPtr (elem : rtype)
| RStruct (name : string)
| RMap (key elem : rtype)
| RSlice (elem : rtype)
| ROther (kind : string).

(** [reflect.StructField]; [sf_yaml] is [field.Tag.Get("yaml")]. *)
Record StructField := mkStructField {
  sf_Name : string;
  sf_yaml : string;
  sf_Type : rtype
}.

(** [jsonSchemaProperty]; a Go map is a list of bindings, looked up from the
    front, and a nil map is the empty list. *)
#[warnings="-register-all"]
Inductive jsonSchemaProperty :=
| mkProperty (Properties : list (string * jsonSchemaProperty))
             (AdditionalProperties : option jsonSchemaProperty)
             (Items : option jsonSchemaProperty).

Definition Properties (p : jsonSchemaProperty) :=
  match p with mkProperty ps _ _ => ps end.
Definition AdditionalProperties (p : jsonSchemaProperty) :=
  match p with mkProperty _ ap _ => ap end.
Definition Items (p : jsonSchemaProperty) :=
  match p with mkProperty _ _ it => it end.

Fixpoint lookup {V} (k : string) (m : list (string * V)) : option V :=
  match m with
  | [] => None
  | (k', v) :: m' => if String.eqb k' k then Some v else lookup k m'
  end.

Definition extractYAMLTagName (field : StructField) : string :=
  let tag := sf_yaml field in
  if String.eqb tag EmptyString || String.eqb tag "-" then EmptyString
  else fst (fst (Cut tag ",")).

(** [for t.Kind() == reflect.Ptr { t = t.Elem() }] *)
Fixpoint unwrap (t : rtype) : rtype :=
  match t with
  | RPtr elem => unwrap elem
  | _ => t
  end.

Definition resolveSchemaProps (goType : rtype) (prop : jsonSchemaProperty)
  : option rtype * list (string * jsonSchemaProperty) :=
  match unwrap goType with
  | RStruct name => (Some (RStruct name), Properties prop)
  | RMap _ elem =>
      match unwrap elem, AdditionalProperties prop with
      | RStruct name, Some ap => (Some (RStruct name), Properties ap)
      | _, _ => (None, [])
      end
  | RSlice elem =>
      match unwrap elem, Items prop with
      | RStruct name, Some it => (Some (RStruct name), Properties it)
      | _, _ => (None, [])
      end
  | _ => (None, [])
  end.

(** One failed [assert.Contains]: the arguments of its message. *)
Record Failure := mkFailure {
  f_struct : string;
  f_field : string;
  f_yaml : string;
  f_path : string
}.

(** A run of the check reports its failures, or panics ([NumField] on a type
    that is no struct); [OutOfFuel] is the model's, for a recursion deeper
    than the fuel given. *)
Inductive checked :=
| Checked (failures : list Failure)
| Panics
| OutOfFuel.

Definition and_then (a b : checked) : checked :=
  match a with
  | Checked fa =>
      match b with
      | Checked fb => Checked (fa ++ fb)
      | other => other
      end
  | other => other
  end.

Section SchemaCheck.

(** The fields of each struct type, in declaration order. *)
Variable fields_of : string -> list StructField.

Fixpoint checkStructFieldsInSchema (fuel : nat) (structType : rtype)
    (schemaProps : list (string * jsonSchemaProperty)) (path : string)
  : checked :=
  match schemaProps with
  | [] => Checked []
  | _ :: _ =>
      match structType with
      | RStruct structName =>
          (fix fields (fs : list StructField) : checked :=
             match fs with
             | [] => Checked []
             | field :: fs' =>
                 let yamlName := extractYAMLTagName field in
                 if String.eqb yamlName EmptyString then fields fs'
                 else
                   match lookup yamlName schemaProps with
                   | None =>
                       and_then
                         (Checked [mkFailure structName (sf_Name field)
                                     yamlName path])
                         (fields fs')
                   | Some prop =>
                       match resolveSchemaProps (sf_Type field) prop with
                       | (Some childStruct, (_ :: _) as childProps) =>
                           match fuel with
                           | O => OutOfFuel
                           | S fuel' =>
                               and_then
                                 (checkStructFieldsInSchema fuel' childStruct
                                    childProps (path ++ "." ++ yamlName))
                                 (fields fs')
                           end
                       | _ => fields fs'
                       end
                   end
             end) (fields_of structName)
      | _ => Panics
      end
  end.

(** The loop over the fields of [checkStructFieldsInSchema], with the
    recursive call as a parameter; [check_unfold] relates the two. *)
Definition fields_loop
    (child : rtype -> list (string * jsonSchemaProperty) -> string -> checked)
    (structName : string) (schemaProps : list (string * jsonSchemaProperty))
    (path : string) : list StructField -> checked :=
  fix fields (fs : list StructField) : checked :=
    match fs with
    | [] => Checked []
    | field :: fs' =>
        let yamlName := extractYAMLTagName field in
        if String.eqb yamlName EmptyString then fields fs'
        else
          match lookup yamlName schemaProps with
          | None =>
              and_then
                (Checked [mkFailure structName (sf_Name field) yamlName path])
                (fields fs')
          | Some prop =>
              match resolveSchemaProps (sf_Type field) prop with
              | (Some childStruct, (_ :: _) as childProps) =>
                  and_then
                    (child childStruct childProps (path ++ "." ++ yamlName))
                    (fields fs')
              | _ => fields fs'
              end
          end
    end.

(** The recursive call at a given fuel. *)
Definition descend (fuel : nat) : rtype -> list (string * jsonSchemaProperty)
                                  -> string -> checked :=
  match fuel with
  | O => fun _ _ _ => OutOfFuel
  | S fuel' => checkStructFieldsInSchema fuel'
  end.

End SchemaCheck.

(** Nesting depth of a schema node and of a property map. *)
Fixpoint depth (p : jsonSchemaProperty) : nat :=
  match p with
  | mkProperty ps ap it =>
      S (Nat.max
           ((fix depths (l : list (string * jsonSchemaProperty)) : nat :=
               match l with
               | [] => 0
               | (_, q) :: l' => Nat.max (depth q) (depths l')
               end) ps)
           (Nat.max (match ap with Some a => depth a | None => 0 end)
                    (match it with Some a => depth a | None => 0 end)))
  end.

Fixpoint depth_props (l : list (string * jsonSchemaProperty)) : nat :=
  match l with
  | [] => 0
  | (_, q) :: l' => Nat.max (depth q) (depth_props l')
  end.

(** A schema node for a map of structs: [models] with
    [additionalProperties.properties.model]. *)
Definition sampleModels : jsonSchemaProperty :=
  mkProperty [] (Some (mkProperty [("model", mkProperty [] None None)]
                         None None)) None.

(** Two struct types that refer to each other, and a schema for them. *)
Definition loop_fields (name : string) : list StructField :=
  if String.eqb name "LoopA" then
    [ mkStructField "B" "b" (RPtr (RStruct "LoopB")) ]
  else if String.eqb name "LoopB" then
    [ mkStructField "A" "a,omitempty" (RPtr (RStruct "LoopA"));
      mkStructField "Note" "note" (ROther "string");
      mkStructField "hidden" "-" (ROther "int") ]
  else [].

Definition loopSchema : list (string * jsonSchemaProperty) :=
  [ ("b", mkProperty [ ("a", mkProperty [] None None) ] None None) ].

(** * Properties *)

(** ** [strings.Contains] finds exactly the substrings *)

Lemma HasPrefix_app (s p : string) :
  HasPrefix s p = true <-> exists post, s = p ++ post.
Proof.
  revert s; induction p as [|a p IH]; intros s.
  - simpl. split; [intros _; exists s; reflexivity | intros _].
    now destruct s.
  - destruct s as [|b s]; simpl.
    + split; [discriminate | intros [post H]; discriminate].
    + rewrite andb_true_iff, Ascii.eqb_eq, IH.
      split.
      * intros [-> [post ->]]. now exists post.
      * intros [post H]. inversion H. eauto.
Qed.

Lemma Contains_spec (s substr : string) :
  Contains s substr = true <-> exists pre post, s = pre ++ substr ++ post.
Proof.
  induction s as [|a s IH]; cbn [Contains].
  - destruct (HasPrefix EmptyString substr) eqn:Hp.
    + split; [intros _|reflexivity].
      apply HasPrefix_app in Hp as [post Hp]. now exists EmptyString, post.
    + split; [discriminate|].
      intros (pre & post & H). destruct pre; [|discriminate].
      simpl in H. assert (HasPrefix EmptyString substr = true) as Hq
        by (apply HasPrefix_app; eauto).
      congruence.
  - destruct (HasPrefix (String a s) substr) eqn:Hp.
    + split; [intros _|reflexivity].
      apply HasPrefix_app in Hp as [post Hp]. now exists EmptyString, post.
    + rewrite IH. split; intros (pre & post & H).
      * exists (String a pre), post. simpl. now rewrite H.
      * destruct pre as [|b pre]; simpl in H.
        -- assert (HasPrefix (String a s) substr = true) as Hq
             by (apply HasPrefix_app; eauto).
           congruence.
        -- inversion H. eauto.
Qed.

(** ** Unfolding [drive] *)

Lemma drive_cons opCtx ctx h ev evs w :
  drive opCtx ctx h (ev :: evs) w =
  (let (r, w1) := invoke opCtx ctx h ev w in
   let (rs, w2) := drive opCtx ctx (snd r) evs w1 in
   ((fst r :: fst rs, snd rs), w2)).
Proof. reflexivity. Qed.

(** ** Strategy selection *)

Lemma New_ExecFunc_query opCtx :
  op_Operation (Operation_ opCtx) = Query ->
  New_ExecFunc opCtx =
  if Contains (RawQuery opCtx) "@defer" then DeferHandler true
  else QueryHandler false.
Proof. unfold New_ExecFunc. now intros ->. Qed.

Lemma New_ExecFunc_subscription opCtx :
  op_Operation (Operation_ opCtx) = Subscription ->
  New_ExecFunc opCtx = SubscriptionHandler.
Proof. unfold New_ExecFunc. now intros ->. Qed.

Lemma New_ExecFunc_mutation opCtx :
  op_Operation (Operation_ opCtx) = Mutation ->
  New_ExecFunc opCtx = OneShot (ErrorResponse "mutations are not supported").
Proof. unfold New_ExecFunc. now intros ->. Qed.

Lemma New_ExecFunc_default opCtx :
  op_Operation (Operation_ opCtx) <> Query ->
  op_Operation (Operation_ opCtx) <> Mutation ->
  op_Operation (Operation_ opCtx) <> Subscription ->
  New_ExecFunc opCtx = OneShot (ErrorResponse "unsupported GraphQL operation").
Proof.
  unfold New_ExecFunc. intros Hq Hm Hs.
  apply String.eqb_neq in Hq, Hm, Hs. now rewrite Hq, Hm, Hs.
Qed.

Lemma New_ExecFunc_defer opCtx :
  op_Operation (Operation_ opCtx) = Query ->
  (exists pre post, RawQuery opCtx = pre ++ "@defer" ++ post) ->
  New_ExecFunc opCtx = DeferHandler true.
Proof.
  intros Hq Hd. rewrite (New_ExecFunc_query _ Hq).
  apply Contains_spec in Hd. now rewrite Hd.
Qed.

(** C6: the handler [New]'s [ExecFunc] returns depends only on the operation
    context: for a query it is the deferred handler exactly when the raw
    query has ["@defer"] as a substring and the single-shot handler
    otherwise; for a subscription it is the streaming handler; two operation
    contexts with the same operation kind and raw query get the same
    handler. *)
Theorem C6_strategy_selection (opCtx : OperationContext) :
  (op_Operation (Operation_ opCtx) = Query ->
     (New_ExecFunc opCtx = DeferHandler true <->
        exists pre post, RawQuery opCtx = pre ++ "@defer" ++ post) /\
     (New_ExecFunc opCtx = QueryHandler false <->
        ~ exists pre post, RawQuery opCtx = pre ++ "@defer" ++ post)) /\
  (op_Operation (Operation_ opCtx) = Subscription ->
     New_ExecFunc opCtx = SubscriptionHandler) /\
  (forall opCtx',
     op_Operation (Operation_ opCtx') = op_Operation (Operation_ opCtx) ->
     RawQuery opCtx' = RawQuery opCtx ->
     New_ExecFunc opCtx' = New_ExecFunc opCtx).
Proof.
  split; [|split].
  - intros Hq. rewrite (New_ExecFunc_query _ Hq).
    pose proof (Contains_spec (RawQuery opCtx) "@defer") as HC.
    destruct (Contains (RawQuery opCtx) "@defer"); intuition congruence.
  - apply New_ExecFunc_subscription.
  - intros opCtx' Hop Hraw. unfold New_ExecFunc. now rewrite Hop, Hraw.
Qed.

Lemma C6_strategy_selection_witness :
  (New_ExecFunc deferQuery = DeferHandler true <->
     exists pre post, RawQuery deferQuery = pre ++ "@defer" ++ post) /\
  New_ExecFunc subscription = SubscriptionHandler.
Proof.
  split.
  - apply (proj1 (C6_strategy_selection deferQuery)). reflexivity.
  - apply (proj1 (proj2 (C6_strategy_selection subscription))). reflexivity.
Defined.


(** ** The deferred (incremental) handler *)

Lemma defer_followups opCtx ctx n w :
  drive opCtx ctx (DeferHandler false) (repeat Next n) w =
  ((repeat (Returned (Some finalPart)) n, DeferHandler false), w).
Proof.
  induction n as [|n IH]; [reflexivity|].
  cbn [repeat]. rewrite drive_cons. cbn [invoke ret fst snd].
  now rewrite IH.
Qed.

(** C1, as stated, fails on the third trigger: after [Next; Next] a third
    [Next] makes the deferred handler return the final part once more, not
    nil. *)
Lemma C1_third_continue_counterexample :
  fst (fst (drive deferQuery background (New_ExecFunc deferQuery)
              [Next; Next; Next] w0)) =
    [Returned (Some initialPart); Returned (Some finalPart);
     Returned (Some finalPart)] /\
  nth_error (fst (fst (drive deferQuery background (New_ExecFunc deferQuery)
                         [Next; Next; Next] w0))) 2 <> Some (Returned None).
Proof. split; [reflexivity | discriminate]. Qed.

(** C1 (amended): for a query whose raw text contains ["@defer"], the
    triggers [Next; Next] yield exactly two responses, the first with
    [HasNext = true] and the payload [{"name":null}], the second with
    [HasNext = false] and the payload [{"name":"test"}]; every further
    [Next] yields the second response again (the handler keeps no terminal
    state of its own), and a call returns nil only when cancellation or the
    complete trigger is the case that fires. *)
Theorem C1_defer_sequence (opCtx : OperationContext) (ctx : Ctx) (w : World)
    (n : nat) :
  op_Operation (Operation_ opCtx) = Query ->
  (exists pre post, RawQuery opCtx = pre ++ "@defer" ++ post) ->
  drive opCtx ctx (New_ExecFunc opCtx) (Next :: Next :: repeat Next n) w =
    ((Returned (Some (mkResponse data_name_null (Some true) []))
        :: Returned (Some (mkResponse data_name_test (Some false) []))
        :: repeat (Returned (Some (mkResponse data_name_test (Some false) []))) n,
      DeferHandler false), w) /\
  (forall ev, ev <> Next ->
     invoke opCtx ctx (DeferHandler false) ev w =
     ((Returned None, DeferHandler false), w)).
Proof.
  intros Hq Hd. split; [|intros [] Hev; [reflexivity | congruence | reflexivity]].
  rewrite (New_ExecFunc_defer _ Hq Hd).
  rewrite drive_cons. cbn [invoke ret fst snd].
  change (Next :: repeat Next n) with (repeat Next (S n)).
  now rewrite defer_followups.
Qed.

Lemma C1_defer_sequence_witness :
  drive deferQuery background (New_ExecFunc deferQuery) [Next; Next] w0 =
    (([Returned (Some (mkResponse data_name_null (Some true) []));
       Returned (Some (mkResponse data_name_test (Some false) []))],
      DeferHandler false), w0).
Proof.
  apply (C1_defer_sequence deferQuery background w0 0).
  - reflexivity.
  - exists "query { ... ", " { name } }". reflexivity.
Defined.

(** ** Terminal results *)

Lemma closed_invoke opCtx ctx h ev w :
  closed h = true -> invoke opCtx ctx h ev w = ((Returned None, h), w).
Proof.
  destruct h as [b|[]| |[]|r []]; simpl; intros Hc;
    (discriminate Hc || reflexivity).
Qed.

Lemma closed_drive opCtx ctx h evs w :
  closed h = true ->
  drive opCtx ctx h evs w = ((repeat (Returned None) (length evs), h), w).
Proof.
  intros Hc. induction evs as [|ev evs IH]; [reflexivity|].
  rewrite drive_cons, (closed_invoke _ _ _ _ _ Hc). cbn [fst snd].
  now rewrite IH.
Qed.

Lemma one_shot_nil_closed opCtx ctx h ev w h1 w1 :
  one_shot h = true ->
  invoke opCtx ctx h ev w = ((Returned None, h1), w1) ->
  closed h1 = true.
Proof.
  destruct h as [b|[]| |[]|r []]; cbn [one_shot selects negb invoke AddError];
    unfold ret, bind; try discriminate; intros _.
  2: destruct (ResolverMiddleware opCtx (WithFieldContext ctx queryFieldContext)
                 resolver w) as [[[p|s] [e|]] w'].
  all: intros H; inversion H; reflexivity.
Qed.

Lemma selects_nil_iff opCtx ctx h ev w :
  selects h = true ->
  (fst (fst (invoke opCtx ctx h ev w)) = Returned None <-> ev <> Next).
Proof.
  destruct h as [[]|b| |b|r b]; cbn [selects]; try discriminate; intros _;
    destruct ev; cbn; split; congruence.
Qed.

(** C2, as stated, fails for the streaming handler: the call that receives
    the complete trigger returns nil, and the next call, receiving a
    [Next], returns a response. *)
Lemma C2_terminal_counterexample :
  fst (fst (drive subscription background (New_ExecFunc subscription)
              [CompleteSubscription; Next] w0)) =
    [Returned None; Returned (Some message)] /\
  nth_error (fst (fst (drive subscription background
                         (New_ExecFunc subscription)
                         [CompleteSubscription; Next] w0))) 1
    <> Some (Returned None).
Proof. split; [reflexivity | discriminate]. Qed.

(** C2 (amended): for the handlers that keep an "already ran" flag (the
    single-shot query handler and the one-shot error handlers), once a call
    returns nil every later call returns nil, whatever fires.  The deferred
    and streaming handlers keep no such flag: a call of theirs returns nil
    exactly when the case that fires is cancellation or the complete
    trigger, also after an earlier nil. *)
Theorem C2_terminal_sticky (opCtx : OperationContext) (ctx : Ctx)
    (h h1 : ResponseHandler) (ev : chan_event) (w w1 : World) :
  invoke opCtx ctx h ev w = ((Returned None, h1), w1) ->
  (one_shot h = true ->
     forall evs w',
       drive opCtx ctx h1 evs w' =
       ((repeat (Returned None) (length evs), h1), w')) /\
  (selects h = true ->
     h1 = h /\
     forall ev' w',
       fst (fst (invoke opCtx ctx h1 ev' w')) = Returned None <-> ev' <> Next).
Proof.
  intros Hi. split.
  - intros Ho evs w'. apply closed_drive.
    exact (one_shot_nil_closed _ _ _ _ _ _ _ Ho Hi).
  - intros Hs.
    assert (h1 = h) as ->.
    { destruct h as [[]|b| |b|r b]; try discriminate Hs;
        destruct ev; cbn in Hi; unfold ret in Hi; congruence. }
    split; [reflexivity|].
    intros ev' w'. now apply selects_nil_iff.
Qed.

Lemma C2_terminal_sticky_witness :
  drive plainQuery background (QueryHandler true) [Next; CtxDone; Next] w0 =
  (([Returned None; Returned None; Returned None], QueryHandler true), w0).
Proof.
  apply (proj1 (C2_terminal_sticky plainQuery background (QueryHandler true)
                  (QueryHandler true) Next w0 w0 eq_refl) eq_refl
           [Next; CtxDone; Next] w0).
Defined.

(** ** A blocked call has no ready case *)

Lemma fire_not_suspended opCtx ctx s ev l :
  suspended (fire opCtx ctx s ev l) = false.
Proof.
  unfold fire. now destruct (invoke opCtx ctx (handler s) ev (world s)).
Qed.

Lemma nothing_ready_no_senders (l : list (chan * N)) :
  existsb (waits_on next) l = false ->
  existsb (waits_on completeSubscription) l = false -> l = [].
Proof.
  destruct l as [|[[] t] l]; cbn; [reflexivity | discriminate |].
  intros _. discriminate.
Qed.

Lemma step_well_formed opCtx ctx s l s' :
  well_formed s -> step opCtx ctx s l = Some s' -> well_formed s'.
Proof.
  unfold well_formed. destruct s as [h w d su se t de out]. cbn.
  intros Hwf. destruct l as [choice|c| |dt]; cbn.
  - destruct su; [discriminate|].
    destruct (selects h) eqn:Hsel.
    + destruct (ready _ choice).
      * intros [= <-]. now rewrite fire_not_suspended.
      * unfold ready. cbn.
        destruct d; [discriminate|]. cbn.
        destruct (existsb (waits_on next) se) eqn:Hn; [discriminate|].
        destruct (existsb (waits_on completeSubscription) se) eqn:Hc;
          [discriminate|].
        intros [= <-]. cbn. intros _.
        repeat split; trivial. now apply nothing_ready_no_senders.
    + intros [= <-]. now rewrite fire_not_suspended.
  - destruct su; intros [= <-]; [now rewrite fire_not_suspended|].
    cbn. discriminate.
  - destruct su; intros [= <-]; [now rewrite fire_not_suspended|].
    cbn. discriminate.
  - intros [= <-]. cbn. intros Hsu.
    destruct (Hwf Hsu) as (Hsel & Hd & ->). now repeat split.
Qed.

(** ** The streaming handler *)

Lemma subscription_drive opCtx ctx evs w :
  drive opCtx ctx SubscriptionHandler evs w =
  ((map answer evs, SubscriptionHandler), w).
Proof.
  induction evs as [|ev evs IH]; [reflexivity|].
  rewrite drive_cons. destruct ev; cbn [invoke ret fst snd];
    now rewrite IH.
Qed.

Lemma envelopes_answers evs : envelopes (map answer evs) = nexts evs.
Proof.
  unfold envelopes, nexts.
  induction evs as [|[] evs IH]; simpl; congruence.
Qed.

Lemma subscription_pacing opCtx ctx n : forall s,
  handler s = SubscriptionHandler ->
  suspended s = true -> ctxDone s = false -> senders s = [] ->
  steps opCtx ctx s (pacing n) =
  Some (mkSys SubscriptionHandler (world s) false true [] (now s)
          (delivered s ++ repeat (Returned (Some message)) n) (stdout s)).
Proof.
  induction n as [|n IH]; intros [h w d su se t dl out]; cbn [handler world
    ctxDone suspended senders now delivered stdout];
    intros -> -> -> ->.
  - cbn. now rewrite app_nil_r.
  - cbn [pacing steps]. cbn. rewrite IH by reflexivity. cbn.
    now rewrite <- app_assoc.
Qed.

(** C3: for a subscription, [n] consecutive [Next] triggers yield [n]
    responses, all equal to the fixed response [{"name":"test"}] with no
    [HasNext]; in any run the number of responses is the number of [Next]
    triggers received; and when a driver sends [n] triggers, one at a time,
    to the suspended handler, each is received at once: [n] responses are
    delivered, no sender is left blocked and nothing is printed. *)
Theorem C3_streaming_one_per_trigger (opCtx : OperationContext) (ctx : Ctx) :
  op_Operation (Operation_ opCtx) = Subscription ->
  (forall n w,
     drive opCtx ctx (New_ExecFunc opCtx) (repeat Next n) w =
     ((repeat (Returned (Some (mkResponse data_name_test None []))) n,
       New_ExecFunc opCtx), w)) /\
  (forall evs w,
     envelopes (fst (fst (drive opCtx ctx (New_ExecFunc opCtx) evs w))) =
     nexts evs) /\
  (forall n s,
     handler s = New_ExecFunc opCtx ->
     suspended s = true -> ctxDone s = false -> senders s = [] ->
     exists s',
       steps opCtx ctx s (pacing n) = Some s' /\
       delivered s' =
         (delivered s
            ++ repeat (Returned (Some (mkResponse data_name_test None []))) n)%list /\
       senders s' = [] /\ stdout s' = stdout s /\ suspended s' = true /\
       handler s' = handler s).
Proof.
  intros Hs. rewrite (New_ExecFunc_subscription _ Hs). repeat split.
  - intros n w. rewrite subscription_drive. f_equal. f_equal.
    induction n as [|n IH]; [reflexivity|]. cbn. now rewrite IH.
  - intros evs w. rewrite subscription_drive. apply envelopes_answers.
  - intros n s Hh Hsu Hd Hse. eexists. split.
    + now apply subscription_pacing.
    + cbn. now rewrite Hh.
Qed.

Lemma C3_streaming_one_per_trigger_witness :
  drive subscription background (New_ExecFunc subscription) [Next; Next; Next] w0 =
  (([Returned (Some (mkResponse data_name_test None []));
     Returned (Some (mkResponse data_name_test None []));
     Returned (Some (mkResponse data_name_test None []))],
    SubscriptionHandler), w0).
Proof.
  apply (proj1 (C3_streaming_one_per_trigger subscription background eq_refl)
           3 w0).
Defined.

(** ** Cancellation *)

(** C4: when the operation's context is canceled while a call of the
    deferred or of the streaming handler is suspended in its [select], that
    call returns nil: nothing but a nil result is delivered, the handler's
    locals are unchanged, and no blocked sender is consumed, however many
    there are. *)
Theorem C4_cancel_while_suspended (opCtx : OperationContext) (ctx : Ctx)
    (s : Sys) :
  suspended s = true ->
  selects (handler s) = true ->
  exists s',
    step opCtx ctx s Cancel = Some s' /\
    delivered s' = (delivered s ++ [Returned None])%list /\
    handler s' = handler s /\ world s' = world s /\
    senders s' = senders s /\ stdout s' = stdout s /\
    suspended s' = false /\ ctxDone s' = true /\
    invoke opCtx ctx (handler s) CtxDone (world s) =
      ((Returned None, handler s), world s).
Proof.
  destruct s as [h w d su se t dl out]. cbn. intros -> Hsel.
  eexists. split; [reflexivity|].
  destruct h as [b|b| |b|r b]; try discriminate Hsel; cbn; tauto.
Qed.

Lemma C4_cancel_while_suspended_witness :
  exists s',
    step deferQuery background suspendedDefer Cancel = Some s' /\
    delivered s' = [Returned None] /\
    handler s' = DeferHandler true /\ world s' = w0 /\
    senders s' = [] /\ stdout s' = [] /\
    suspended s' = false /\ ctxDone s' = true /\
    invoke deferQuery background (DeferHandler true) CtxDone w0 =
      ((Returned None, DeferHandler true), w0).
Proof.
  apply (C4_cancel_while_suspended deferQuery background suspendedDefer);
    reflexivity.
Defined.

(** ** Mutations and unknown operations *)

Lemma OneShot_drive opCtx ctx resp ev evs w :
  drive opCtx ctx (OneShot resp) (ev :: evs) w =
  ((Returned (Some resp) :: repeat (Returned None) (length evs),
    OneShotHandler resp true), w).
Proof.
  rewrite drive_cons. cbn [OneShot invoke ret fst snd].
  now rewrite closed_drive.
Qed.

(** C5: for a mutation, and for an operation that is neither query, mutation
    nor subscription, the handler's first call returns a response with
    exactly one error and every later call returns nil; the message is
    ["mutations are not supported"] in the first case and
    ["unsupported GraphQL operation"] in the second. *)
Theorem C5_error_producers (opCtx : OperationContext) (ctx : Ctx)
    (ev : chan_event) (evs : list chan_event) (w : World) :
  (op_Operation (Operation_ opCtx) = Mutation ->
     exists resp,
       drive opCtx ctx (New_ExecFunc opCtx) (ev :: evs) w =
         ((Returned (Some resp) :: repeat (Returned None) (length evs),
           OneShotHandler resp true), w) /\
       map Message (Errors resp) = ["mutations are not supported"]) /\
  (op_Operation (Operation_ opCtx) <> Query ->
   op_Operation (Operation_ opCtx) <> Mutation ->
   op_Operation (Operation_ opCtx) <> Subscription ->
     exists resp,
       drive opCtx ctx (New_ExecFunc opCtx) (ev :: evs) w =
         ((Returned (Some resp) :: repeat (Returned None) (length evs),
           OneShotHandler resp true), w) /\
       map Message (Errors resp) = ["unsupported GraphQL operation"]) /\
  "mutations are not supported" <> "unsupported GraphQL operation".
Proof.
  repeat split.
  - intros Hm. rewrite (New_ExecFunc_mutation _ Hm). eexists.
    split; [apply OneShot_drive | reflexivity].
  - intros Hq Hm Hs. rewrite (New_ExecFunc_default _ Hq Hm Hs). eexists.
    split; [apply OneShot_drive | reflexivity].
  - discriminate.
Qed.

Lemma C5_error_producers_witness :
  exists resp,
    drive mutation background (New_ExecFunc mutation) [Next; Next] w0 =
      (([Returned (Some resp); Returned None], OneShotHandler resp true), w0) /\
    map Message (Errors resp) = ["mutations are not supported"].
Proof.
  apply (proj1 (C5_error_producers mutation background Next [Next] w0)).
  reflexivity.
Defined.

(** ** The single-shot query handler *)

(** The first call of the single-shot handler sets [ran] before anything
    else, whatever the middleware does; later calls find it set. *)
Lemma single_shot_runs_once opCtx ctx ev evs w :
  exists o w',
    invoke opCtx ctx (QueryHandler false) ev w = ((o, QueryHandler true), w') /\
    drive opCtx ctx (QueryHandler false) (ev :: evs) w =
      ((o :: repeat (Returned None) (length evs), QueryHandler true), w').
Proof.
  rewrite drive_cons. cbn [invoke]. unfold bind.
  destruct (ResolverMiddleware opCtx (WithFieldContext ctx queryFieldContext)
              resolver w) as [[[p|s] [e|]] w'];
    cbn [ret fst snd]; do 2 eexists; rewrite closed_drive by reflexivity;
    split; reflexivity.
Qed.

(** C7, as stated, fails for a plain query whose resolver middleware returns
    an error: the first call panics, so the two calls yield no response at
    all. *)
Lemma C7_failing_middleware_counterexample :
  op_Operation (Operation_ failingQuery) = Query /\
  Contains (RawQuery failingQuery) "@defer" = false /\
  fst (fst (drive failingQuery background (New_ExecFunc failingQuery)
              [Next; Next] w0)) = [Panicked "boom"; Returned None] /\
  envelopes (fst (fst (drive failingQuery background (New_ExecFunc failingQuery)
                         [Next; Next] w0))) = 0.
Proof. repeat split. Qed.

(** C7 (amended): for a query without ["@defer"], the resolver middleware is
    called once, on the first call, in a context whose innermost field
    context has [Object = "Query"] and field name ["name"]; [ran] is set
    before it, so every later call returns nil and changes nothing.  The
    first call panics with the middleware's error if it returns one, returns
    the response the middleware returns, and panics if the middleware returns
    something that is no response.  With a middleware that just calls the
    resolver, the first call returns the response [{"name":"test"}] with no
    [HasNext], and the resolver body ran exactly once, in that context. *)
Theorem C7_single_shot (opCtx : OperationContext) (ctx : Ctx)
    (ev : chan_event) (evs : list chan_event) (w : World) :
  op_Operation (Operation_ opCtx) = Query ->
  (~ exists pre post, RawQuery opCtx = pre ++ "@defer" ++ post) ->
  (forall res err w',
     ResolverMiddleware opCtx (WithFieldContext ctx queryFieldContext)
       resolver w = ((res, err), w') ->
     exists o,
       drive opCtx ctx (New_ExecFunc opCtx) (ev :: evs) w =
         ((o :: repeat (Returned None) (length evs), QueryHandler true), w') /\
       (forall e, err = Some e -> o = Panicked e) /\
       (forall p, err = None -> res = AnyResponse p -> o = Returned p) /\
       (forall x, err = None -> res = AnyOther x -> exists msg, o = Panicked msg)) /\
  (option_map Object
     (GetFieldContext (WithFieldContext ctx queryFieldContext)) = Some "Query" /\
   option_map (fun fc => Name (Field_ fc))
     (GetFieldContext (WithFieldContext ctx queryFieldContext)) = Some "name") /\
  ((forall c (r : Resolver), ResolverMiddleware opCtx c r = r c) ->
   exists c,
     drive opCtx ctx (New_ExecFunc opCtx) (ev :: evs) w =
       ((Returned (Some (mkResponse data_name_test None []))
           :: repeat (Returned None) (length evs),
         QueryHandler true),
        mkWorld (resolutions w ++ [c]) (recorded w)) /\
     c = WithFieldContext ctx queryFieldContext /\
     option_map Object (GetFieldContext c) = Some "Query" /\
     option_map (fun fc => Name (Field_ fc)) (GetFieldContext c) = Some "name").
Proof.
  intros Hq Hd.
  assert (New_ExecFunc opCtx = QueryHandler false) as ->.
  { rewrite (New_ExecFunc_query _ Hq).
    destruct (Contains (RawQuery opCtx) "@defer") eqn:HC; [|reflexivity].
    apply Contains_spec in HC. contradiction. }
  split; [|split; [split; reflexivity|]].
  - intros res err w' Hmw. rewrite drive_cons. cbn [invoke]. unfold bind.
    rewrite Hmw.
    destruct err as [e|], res as [p|x]; cbn [ret fst snd];
      rewrite closed_drive by reflexivity; eexists;
      (split; [reflexivity|]); repeat split; intros; try congruence; eauto.
  - intros Hmw. eexists. split; [|repeat split].
    rewrite drive_cons. cbn [invoke]. unfold bind. rewrite Hmw.
    cbn [resolver ret fst snd]. now rewrite closed_drive.
Qed.

Lemma plainQuery_no_defer :
  ~ exists pre post, RawQuery plainQuery = pre ++ "@defer" ++ post.
Proof. intros H. apply Contains_spec in H. discriminate H. Qed.

Lemma C7_single_shot_witness :
  exists c,
    drive plainQuery background (New_ExecFunc plainQuery) [Next; Next] w0 =
      (([Returned (Some (mkResponse data_name_test None [])); Returned None],
        QueryHandler true),
       mkWorld [c] []) /\
    c = WithFieldContext background queryFieldContext /\
    option_map Object (GetFieldContext c) = Some "Query" /\
    option_map (fun fc => Name (Field_ fc)) (GetFieldContext c) = Some "name".
Proof.
  apply (proj2 (proj2 (C7_single_shot plainQuery background Next [Next] w0
                         eq_refl plainQuery_no_defer))).
  reflexivity.
Defined.

(** ** Resolver errors *)

(** C8: an error recorded with [AddError] during a call is appended to the
    error list of the response that call returns, whose [Data] is what the
    handler put there; for the query handler of [NewError] the response
    carries [Data = null] (the handler's own choice) together with the one
    error ["resolver error"]. *)
Theorem C8_errors_merged (opCtx : OperationContext) (ctx : Ctx) :
  (forall h ev w resp h1 w1,
     invoke opCtx ctx h ev (mkWorld (resolutions w) []) =
       ((Returned (Some resp), h1), w1) ->
     dispatch opCtx ctx h ev w =
       ((Returned (Some (mkResponse (Data resp) (HasNext resp)
                           (Errors resp ++ recorded w1)%list)), h1), w1)) /\
  (op_Operation (Operation_ opCtx) = Query ->
   forall ev w,
     exists resp,
       fst (dispatch opCtx ctx (NewError_ExecFunc opCtx) ev w) =
         (Returned (Some resp), ErrorQueryHandler true) /\
       Data resp = data_null /\
       map Message (Errors resp) = ["resolver error"]).
Proof.
  split.
  - intros h ev w resp h1 w1 Hi. unfold dispatch. now rewrite Hi.
  - intros Hq ev w. unfold NewError_ExecFunc. rewrite Hq.
    eexists. split; [reflexivity|]. split; reflexivity.
Qed.

Lemma C8_errors_merged_witness :
  exists resp,
    fst (dispatch errorQuery background (NewError_ExecFunc errorQuery) Next w0) =
      (Returned (Some resp), ErrorQueryHandler true) /\
    Data resp = data_null /\
    map Message (Errors resp) = ["resolver error"].
Proof.
  apply (proj2 (C8_errors_merged errorQuery background) eq_refl Next w0).
Defined.

(** ** Complexity *)

Lemma last_cons (cs : list Z) : forall c d, last (c :: cs) d = last cs c.
Proof.
  induction cs as [|z cs IH]; intros c d; [reflexivity|].
  change (last (c :: z :: cs) d) with (last (z :: cs) d).
  now rewrite !IH.
Qed.

Lemma complexity_fold (cs : list Z) : forall srv,
  complexity (fold_left SetCalculatedComplexity cs srv) =
  last cs (complexity srv).
Proof.
  induction cs as [|c cs IH]; intros srv; [reflexivity|].
  cbn [fold_left]. rewrite IH. cbn [SetCalculatedComplexity complexity].
  now rewrite last_cons.
Qed.

(** C10: [ComplexityFunc] ignores all its arguments and returns
    [(c, true)], where [c] is the value last passed to
    [SetCalculatedComplexity], or 0 if there was none; hence two calls
    between the same updates agree. *)
Theorem C10_complexity_constant (cs : list Z) (ctx ctx' : Ctx)
    (typeName fieldName typeName' fieldName' : string)
    (childComplexity childComplexity' : Z) (args args' : list (string * any)) :
  let srv := fold_left SetCalculatedComplexity cs New in
  ComplexityFunc srv ctx typeName fieldName childComplexity args =
    (last cs 0%Z, true) /\
  ComplexityFunc srv ctx typeName fieldName childComplexity args =
    ComplexityFunc srv ctx' typeName' fieldName' childComplexity' args'.
Proof.
  cbn zeta. split; [|reflexivity].
  unfold ComplexityFunc. f_equal. apply complexity_fold.
Qed.

(** ** Sending with nobody waiting *)

Lemma map_const_repeat {A B} (b : B) (l : list A) :
  map (fun _ => b) l = repeat b (length l).
Proof. induction l as [|a l IH]; simpl; congruence. Qed.

Lemma In_length_pos {A} (a : A) (l : list A) : In a l -> 1 <= length l.
Proof. destruct l; simpl; [tauto | lia]. Qed.

Section Unanswered.

Variable opCtx : OperationContext.
Variable ctx : Ctx.
Variable s0 : Sys.
Variable c : chan.
Variable dl : N.

Lemma unanswered_step cur l :
  unanswered s0 c dl cur -> is_call l = false ->
  exists cur',
    step opCtx ctx cur l = Some cur' /\ unanswered s0 c dl cur' /\
    now cur' = (now cur + elapsed [l])%N.
Proof.
  intros (Hsu & Hh & Hw & Hd & k & Hout & Hk) Hl.
  destruct cur as [h w d su se t de out]. cbn in *. subst su.
  destruct l as [choice|c'|  |dt]; try discriminate Hl; cbn;
    eexists; (split; [reflexivity|]); (split; [|cbn; lia]);
    unfold unanswered; cbn; do 4 (split; [assumption || reflexivity|]).
  - exists k. split; [assumption|].
    destruct Hk as [[Hin Hlt]|(Hk & Hnin & Hle)]; [left|right].
    + split; [apply in_or_app; now left | assumption].
    + repeat split; try assumption.
      intros Hin. apply in_app_or in Hin as [Hin|[Heq|[]]]; [tauto|].
      inversion Heq. unfold Second in *. lia.
  - exists k. now split.
  - exists (k + length (filter (expired (t + dt)) se)).
    split.
    { rewrite Hout, map_const_repeat, repeat_app. now rewrite app_assoc. }
    destruct Hk as [[Hin Hlt]|(Hk & Hnin & Hle)].
    + destruct (N.leb_spec dl (t + dt)) as [Hexp|Hpen].
      * right. repeat split.
        -- assert (In (c, dl) (filter (expired (t + dt)) se)) as Hf.
           { apply filter_In. split; [assumption|].
             unfold expired. cbn. now apply N.leb_le. }
           apply In_length_pos in Hf. lia.
        -- intros Hf. apply filter_In in Hf as [_ Hf].
           unfold pending, expired in Hf. cbn in Hf.
           apply negb_true_iff, N.leb_gt in Hf. lia.
        -- assumption.
      * left. split; [|assumption].
        apply filter_In. split; [assumption|].
        unfold pending, expired. cbn.
        now apply negb_true_iff, N.leb_gt.
    + right. repeat split.
      * lia.
      * intros Hf. apply filter_In in Hf as [Hf _]. tauto.
      * lia.
Qed.

Lemma unanswered_steps ls : forall cur,
  unanswered s0 c dl cur ->
  Forall (fun l => is_call l = false) ls ->
  exists s',
    steps opCtx ctx cur ls = Some s' /\ unanswered s0 c dl s' /\
    now s' = (now cur + elapsed ls)%N.
Proof.
  induction ls as [|l ls IH]; intros cur Hinv Hq.
  - exists cur. cbn. split; [reflexivity | split; [assumption | lia]].
  - inversion Hq as [|l' ls' Hl Hls]; subst.
    destruct (unanswered_step cur l Hinv Hl) as (cur' & Hstep & Hinv' & Hnow).
    destruct (IH cur' Hinv' Hls) as (s' & Hsteps & Hinv'' & Hnow'').
    exists s'. cbn [steps]. rewrite Hstep.
    split; [assumption | split; [assumption|]].
    rewrite Hnow'', Hnow. destruct l; cbn; lia.
Qed.

End Unanswered.

(** C9: a call of [SendNextSubscriptionMessage] or
    [SendCompleteSubscriptionMessage] made while no call of the handler is
    suspended, and not met by one before its timer fires, gives up: once one
    second has passed it is no longer blocked, it has printed its warning,
    and the handler's locals, the world and the delivered results are as
    they were.  Other sends, a cancellation and the passing of time may
    interleave freely. *)
Theorem C9_send_gives_up (opCtx : OperationContext) (ctx : Ctx) (s : Sys)
    (c : chan) (ls : list label) :
  suspended s = false ->
  Forall (fun l => is_call l = false) ls ->
  (Second <= elapsed ls)%N ->
  exists s' k,
    steps opCtx ctx s (Send c :: ls) = Some s' /\
    handler s' = handler s /\ world s' = world s /\
    delivered s' = delivered s /\ suspended s' = false /\
    1 <= k /\ stdout s' = (stdout s ++ repeat WARNING k)%list /\
    ~ In (c, (now s + Second)%N) (senders s').
Proof.
  intros Hsu Hq Hel.
  destruct s as [h w d su se t de out]. cbn in Hsu. subst su.
  set (s := mkSys h w d false se t de out).
  set (s1 := mkSys h w d false (se ++ [(c, (t + Second)%N)]) t de out).
  assert (unanswered s c (t + Second) s1) as Hinv.
  { unfold unanswered, s1. cbn. do 4 (split; [reflexivity|]).
    exists 0. split; [now rewrite app_nil_r|]. left.
    split; [apply in_or_app; right; now left | unfold Second; lia]. }
  destruct (unanswered_steps opCtx ctx s c (t + Second) ls s1 Hinv Hq)
    as (s' & Hsteps & (Hsu' & Hh & Hw & Hd & k & Hout & Hk) & Hnow).
  exists s', k. cbn [steps step suspended]. fold s1.
  cbn in Hnow.
  destruct Hk as [[_ Hlt]|(Hk & Hnin & _)]; [lia|].
  repeat split; assumption.
Qed.

Lemma C9_send_gives_up_witness :
  exists s' k,
    steps plainQuery background (start (SubscriptionHandler))
      [SendNextSubscriptionMessage; Advance Second] = Some s' /\
    handler s' = SubscriptionHandler /\ world s' = w0 /\
    delivered s' = [] /\ suspended s' = false /\
    1 <= k /\ stdout s' = repeat WARNING k /\
    ~ In (next, Second) (senders s').
Proof.
  apply (C9_send_gives_up plainQuery background (start SubscriptionHandler)
           next [Advance Second]).
  - reflexivity.
  - repeat constructor.
  - cbn. lia.
Defined.

(** * Further properties of the test server *)

(** ** The deferred handler over arbitrary runs *)






(** ** The single-shot handler when resolution fails *)

(** X2: when the resolver middleware returns an error, the first call of
    the single-shot handler panics with that error; [ran] was set before the
    middleware ran, so a host that recovers and calls again gets nil every
    time and the middleware is not run again.  The same holds when the
    middleware returns a value that is not a [*graphql.Response]. *)
Theorem single_shot_panic_is_final (opCtx : OperationContext) (ctx : Ctx)
    (ev : chan_event) (evs : list chan_event) (w w' : World)
    (res : any) (err : option string) :
  ResolverMiddleware opCtx (WithFieldContext ctx queryFieldContext) resolver w
    = ((res, err), w') ->
  (err <> None \/ exists s, res = AnyOther s) ->
  exists msg,
    drive opCtx ctx (QueryHandler false) (ev :: evs) w =
      ((Panicked msg :: repeat (Returned None) (length evs),
        QueryHandler true), w') /\
    (forall e, err = Some e -> msg = e).
Proof.
  intros Hmw Hbad. rewrite drive_cons. cbn [invoke]. unfold bind.
  rewrite Hmw.
  destruct err as [e|].
  - exists e. destruct res; cbn [ret fst snd];
      rewrite closed_drive by reflexivity;
      (split; [reflexivity | now intros e0 [= ->]]).
  - destruct Hbad as [Hbad|[s ->]]; [congruence|].
    eexists. cbn [ret fst snd]. rewrite closed_drive by reflexivity.
    split; [reflexivity | discriminate].
Qed.

Lemma single_shot_panic_is_final_witness :
  exists msg,
    drive failingQuery background (QueryHandler false) [Next; Next] w0 =
      (([Panicked msg; Returned None], QueryHandler true), w0) /\
    (forall e, Some "boom" = Some e -> msg = e).
Proof.
  apply (single_shot_panic_is_final failingQuery background Next [Next] w0 w0
           (AnyResponse None) (Some "boom")).
  - reflexivity.
  - left. discriminate.
Defined.

(** ** Every [Next] is accounted for *)

Lemma envelopes_snoc rs r :
  envelopes (rs ++ [r]) =
  envelopes rs + match r with Returned (Some _) => 1 | _ => 0 end.
Proof.
  unfold envelopes. rewrite filter_app, length_app.
  destruct r as [[x|]|m]; reflexivity.
Qed.

Lemma filter_partition_length {A} (f : A -> bool) (l : list A) :
  length (filter f l) + length (filter (fun x => negb (f x)) l) = length l.
Proof.
  induction l as [|a l IH]; [reflexivity|].
  cbn. destruct (f a); cbn; lia.
Qed.

Lemma dequeue_next_all_next (l : list (chan * N)) :
  Forall (fun p => fst p = next) l ->
  existsb (waits_on next) l = true ->
  S (length (dequeue next l)) = length l /\
  Forall (fun p => fst p = next) (dequeue next l).
Proof.
  destruct l as [|[c t] l]; [discriminate|].
  intros Hall _. inversion Hall as [|p l' Hc Hl]; subst. cbn in Hc. subst c.
  cbn. now split.
Qed.

Lemma no_complete_waiting (l : list (chan * N)) :
  Forall (fun p => fst p = next) l ->
  existsb (waits_on completeSubscription) l = false.
Proof.
  induction 1 as [|[c t] l Hc Hl IH]; [reflexivity|].
  cbn in Hc. subst c. cbn. exact IH.
Qed.

Lemma fire_select opCtx ctx s ev l :
  selects (handler s) = true ->
  exists h' o,
    fire opCtx ctx s ev l =
      mkSys h' (world s) (ctxDone s) false l (now s)
            (delivered s ++ [o]) (stdout s) /\
    selects h' = true /\
    (match o with Returned (Some _) => 1 | _ => 0 end =
     match ev with Next => 1 | _ => 0 end).
Proof.
  unfold fire. destruct s as [h w d su se t de out]. cbn.
  destruct h as [[]|b| |b|r b]; try discriminate; intros _;
    destruct ev; cbn; do 2 eexists; repeat split.
Qed.

Ltac sys_fields :=
  cbn [handler world ctxDone suspended senders now delivered stdout].

Lemma accounted_step opCtx ctx s l s' :
  selects (handler s) = true ->
  Forall (fun p => fst p = next) (senders s) ->
  l <> Send completeSubscription ->
  step opCtx ctx s l = Some s' ->
  selects (handler s') = true /\
  Forall (fun p => fst p = next) (senders s') /\
  accounted s' = accounted s + sends_on next [l].
Proof.
  intros Hsel Hall Hl.
  destruct l as [choice|c| |dt]; cbn [step]; unfold sends_on;
    cbn [filter length].
  - destruct (suspended s); [discriminate|]. rewrite Hsel.
    destruct (ready s choice) eqn:Hr.
    + intros [= <-].
      destruct (fire_select opCtx ctx s choice
                  (after_recv choice (senders s)) Hsel)
        as (h' & o & -> & Hsel' & Ho).
      unfold accounted; sys_fields. rewrite envelopes_snoc, Ho.
      destruct choice; cbn in Hr |- *.
      * repeat split; trivial; try lia.
      * destruct (dequeue_next_all_next _ Hall Hr) as [Hlen Hall'].
        repeat split; trivial; try lia.
      * rewrite (no_complete_waiting _ Hall) in Hr. discriminate.
    + destruct (ready s CtxDone || ready s Next || ready s CompleteSubscription);
        [discriminate|].
      intros [= <-]. unfold accounted; sys_fields. repeat split; trivial; try lia.
  - destruct c; [|congruence]. cbn [chan_eqb filter length].
    destruct (suspended s).
    + intros [= <-].
      destruct (fire_select opCtx ctx s Next (senders s) Hsel)
        as (h' & o & -> & Hsel' & Ho).
      unfold accounted; sys_fields. rewrite envelopes_snoc, Ho.
      repeat split; trivial; try lia.
    + intros [= <-]. unfold accounted; sys_fields. rewrite length_app. cbn.
      repeat split; trivial.
      * apply Forall_app. split; [assumption|]. now constructor.
      * lia.
  - destruct (suspended s).
    + intros [= <-].
      destruct (fire_select opCtx ctx
                  (mkSys (handler s) (world s) true true (senders s) (now s)
                         (delivered s) (stdout s)) CtxDone (senders s) Hsel)
        as (h' & o & -> & Hsel' & Ho).
      unfold accounted; sys_fields. rewrite envelopes_snoc, Ho.
      repeat split; trivial; try lia.
    + intros [= <-]. unfold accounted; sys_fields. repeat split; trivial; try lia.
  - intros [= <-]. unfold accounted; sys_fields.
    rewrite length_app, length_map.
    pose proof (filter_partition_length (expired (now s + dt)) (senders s)) as Hp.
    repeat split; trivial.
    + apply Forall_forall. intros p Hp'. apply filter_In in Hp' as [Hp' _].
      now apply (proj1 (Forall_forall _ _) Hall).
    + unfold pending. lia.
Qed.

(** X3: for the deferred and the streaming handler, under any interleaving
    of handler calls, sends on [next], cancellation and the passing of time,
    every [SendNextSubscriptionMessage] is accounted for exactly once: it
    was answered by one response, or it is still blocked, or it printed its
    warning.  No trigger is answered twice and none vanishes. *)
Theorem next_triggers_accounted (opCtx : OperationContext) (ctx : Ctx)
    (ls : list label) : forall (s s' : Sys),
  selects (handler s) = true ->
  Forall (fun p => fst p = next) (senders s) ->
  Forall (fun l => l <> Send completeSubscription) ls ->
  steps opCtx ctx s ls = Some s' ->
  envelopes (delivered s') + length (senders s') + length (stdout s') =
  envelopes (delivered s) + length (senders s) + length (stdout s)
    + sends_on next ls.
Proof.
  induction ls as [|l ls IH]; intros s s' Hsel Hall Hls.
  - intros [= <-]. cbn. lia.
  - inversion Hls as [|l' ls' Hl Hls']; subst. cbn [steps].
    destruct (step opCtx ctx s l) as [s1|] eqn:Hstep; [|discriminate].
    intros Hsteps.
    destruct (accounted_step opCtx ctx s l s1 Hsel Hall Hl Hstep)
      as (Hsel1 & Hall1 & Hacc).
    rewrite (IH s1 s' Hsel1 Hall1 Hls' Hsteps).
    unfold accounted in Hacc. rewrite Hacc.
    unfold sends_on. cbn. destruct l as [|[]| |]; cbn; lia.
Qed.

Lemma next_triggers_accounted_witness :
  exists s',
    steps subscription background (start SubscriptionHandler)
      [Send next; Call Next; Call CtxDone; Send next; Send next;
       Advance Second] = Some s' /\
    envelopes (delivered s') + length (senders s') + length (stdout s') = 3.
Proof.
  eexists. split; [reflexivity|].
  apply (next_triggers_accounted subscription background
           [Send next; Call Next; Call CtxDone; Send next; Send next;
            Advance Second]
           (start SubscriptionHandler) _ eq_refl (Forall_nil _)).
  - repeat constructor; discriminate.
  - reflexivity.
Defined.

(** ** A trigger sent shortly before the handler waits *)

(** X4: with the context not canceled and no other send blocked, a
    [SendNextSubscriptionMessage] started while the deferred or the
    streaming handler is not waiting stays blocked for less than a second
    without printing anything, and a call of the handler made within that
    second must take it: that call returns a response, the sender is
    released, and the call can neither block nor return nil through another
    case. *)
Theorem early_trigger_is_delivered (opCtx : OperationContext) (ctx : Ctx)
    (s : Sys) (d : N) :
  selects (handler s) = true ->
  suspended s = false -> ctxDone s = false -> senders s = [] ->
  (d < Second)%N ->
  (exists s' resp,
     steps opCtx ctx s [SendNextSubscriptionMessage; Advance d; Call Next]
       = Some s' /\
     delivered s' = (delivered s ++ [Returned (Some resp)])%list /\
     stdout s' = stdout s /\ senders s' = [] /\ suspended s' = false) /\
  steps opCtx ctx s [SendNextSubscriptionMessage; Advance d; Call CtxDone]
    = None /\
  steps opCtx ctx s
    [SendNextSubscriptionMessage; Advance d; Call CompleteSubscription] = None.
Proof.
  destruct s as [h w dn su se t de out]. cbn [handler suspended ctxDone senders].
  intros Hsel -> -> -> Hd.
  assert (expired (t + d) (next, (t + Second)%N) = false) as Hle
    by (apply N.leb_gt; cbn; lia).
  assert (pending (t + d) (next, (t + Second)%N) = true) as Hpe
    by (unfold pending; now rewrite Hle).
  unfold SendNextSubscriptionMessage.
  cbn [steps step suspended senders now app filter
       handler ctxDone world delivered stdout].
  rewrite Hle, Hpe. cbn [map]. rewrite Hsel.
  cbn [ready senders ctxDone existsb waits_on chan_eqb fst orb after_recv
       dequeue].
  repeat split.
  destruct h as [[]|b| |b|r b]; try discriminate Hsel; cbn;
    do 2 eexists; rewrite app_nil_r; repeat split.
Qed.

Lemma early_trigger_is_delivered_witness :
  exists s' resp,
    steps deferQuery background (start (DeferHandler true))
      [SendNextSubscriptionMessage; Advance 999999999; Call Next] = Some s' /\
    delivered s' = [Returned (Some resp)] /\
    stdout s' = [] /\ senders s' = [] /\ suspended s' = false.
Proof.
  apply (proj1 (early_trigger_is_delivered deferQuery background
                  (start (DeferHandler true)) 999999999
                  eq_refl eq_refl eq_refl eq_refl eq_refl)).
Defined.

(** ** Cancellation and a waiting trigger *)

(** X5: cancellation has no priority over a trigger that is already
    waiting.  When the context is canceled and a
    [SendNextSubscriptionMessage] is blocked before the deferred or the
    streaming handler is called, both cases of the [select] are ready: the
    call may take the trigger and return a response, or take
    [ctx.Done()] and return nil, leaving the sender blocked. *)
Theorem cancel_has_no_priority (opCtx : OperationContext) (ctx : Ctx)
    (s : Sys) :
  selects (handler s) = true ->
  suspended s = false -> senders s = [] ->
  (exists s1 resp,
     steps opCtx ctx s [Cancel; SendNextSubscriptionMessage; Call Next]
       = Some s1 /\
     delivered s1 = (delivered s ++ [Returned (Some resp)])%list /\
     senders s1 = []) /\
  (exists s2,
     steps opCtx ctx s [Cancel; SendNextSubscriptionMessage; Call CtxDone]
       = Some s2 /\
     delivered s2 = (delivered s ++ [Returned None])%list /\
     senders s2 = [(next, (now s + Second)%N)] /\
     handler s2 = handler s).
Proof.
  destruct s as [h w dn su se t de out].
  cbn [handler suspended senders now delivered].
  intros Hsel -> ->. unfold SendNextSubscriptionMessage.
  cbn [steps step suspended senders now app handler ctxDone world delivered
       stdout].
  rewrite Hsel.
  cbn [ready senders ctxDone existsb waits_on chan_eqb fst orb after_recv
       dequeue].
  destruct h as [[]|b| |b|r b]; try discriminate Hsel; cbn;
    (split; [do 2 eexists | eexists]); repeat split.
Qed.

Lemma cancel_has_no_priority_witness :
  (exists s1 resp,
     steps subscription background (start SubscriptionHandler)
       [Cancel; SendNextSubscriptionMessage; Call Next] = Some s1 /\
     delivered s1 = [Returned (Some resp)] /\
     senders s1 = []) /\
  (exists s2,
     steps subscription background (start SubscriptionHandler)
       [Cancel; SendNextSubscriptionMessage; Call CtxDone] = Some s2 /\
     delivered s2 = [Returned None] /\
     senders s2 = [(next, Second)] /\
     handler s2 = SubscriptionHandler).
Proof.
  apply (cancel_has_no_priority subscription background
           (start SubscriptionHandler) eq_refl eq_refl eq_refl).
Defined.

(** ** A server without subscriptions *)

Lemma invoke_keeps_kind opCtx ctx h ev w :
  selects (snd (fst (invoke opCtx ctx h ev w))) = selects h.
Proof.
  destruct h as [[]|[]| |[]|r []]; try (destruct ev; reflexivity).
  cbn [invoke]. unfold bind.
  destruct (ResolverMiddleware opCtx (WithFieldContext ctx queryFieldContext)
              resolver w) as [[[p|s] [e|]] w']; reflexivity.
Qed.

Lemma NewError_never_selects opCtx : selects (NewError_ExecFunc opCtx) = false.
Proof.
  unfold NewError_ExecFunc.
  destruct (String.eqb _ Query); [reflexivity|].
  destruct (String.eqb _ Mutation); [reflexivity|].
  destruct (String.eqb _ Subscription); reflexivity.
Qed.

Lemma timed_step opCtx ctx s0 c dl cur l cur' :
  suspended cur = false -> selects (handler cur) = false ->
  timed s0 c dl cur ->
  step opCtx ctx cur l = Some cur' ->
  suspended cur' = false /\ selects (handler cur') = false /\
  timed s0 c dl cur' /\ now cur' = (now cur + elapsed [l])%N.
Proof.
  intros Hsu Hsel (k & Hout & Hk).
  destruct cur as [h w d su se t de out]. cbn in Hsu, Hsel, Hout, Hk.
  subst su. destruct l as [choice|c'| |dt]; cbn [step suspended handler];
    rewrite ?Hsel.
  - intros [= <-]. unfold fire. sys_fields.
    pose proof (invoke_keeps_kind opCtx ctx h choice w) as Hkind.
    destruct (invoke opCtx ctx h choice w) as [[o h'] w']. cbn in Hkind.
    unfold timed. sys_fields. cbn [fst snd elapsed].
    repeat split; try congruence; [|lia].
    exists k. split; [assumption|].
    destruct Hk as [[Hin Hlt]|(Hk & Hnin & Hle)]; [left|right]; tauto.
  - intros [= <-]. unfold timed. sys_fields. cbn [elapsed].
    repeat split; trivial; [|lia].
    exists k. split; [assumption|].
    destruct Hk as [[Hin Hlt]|(Hk & Hnin & Hle)]; [left|right].
    + split; [apply in_or_app; now left | assumption].
    + repeat split; try assumption.
      intros Hin. apply in_app_or in Hin as [Hin|[Heq|[]]]; [tauto|].
      inversion Heq. unfold Second in *. lia.
  - intros [= <-]. unfold timed. sys_fields. cbn [elapsed].
    repeat split; trivial; [|lia]. exists k. now split.
  - intros [= <-]. unfold timed. sys_fields. cbn [elapsed].
    repeat split; trivial; [|lia].
    exists (k + length (filter (expired (t + dt)) se)).
    split.
    { rewrite Hout, map_const_repeat, repeat_app. now rewrite app_assoc. }
    destruct Hk as [[Hin Hlt]|(Hk & Hnin & Hle)].
    + destruct (N.leb_spec dl (t + dt)) as [Hexp|Hpen].
      * right. repeat split.
        -- assert (In (c, dl) (filter (expired (t + dt)) se)) as Hf.
           { apply filter_In. split; [assumption|].
             unfold expired. cbn. now apply N.leb_le. }
           apply In_length_pos in Hf. lia.
        -- intros Hf. apply filter_In in Hf as [_ Hf].
           unfold pending, expired in Hf. cbn in Hf.
           apply negb_true_iff, N.leb_gt in Hf. lia.
        -- assumption.
      * left. split; [|assumption].
        apply filter_In. split; [assumption|].
        unfold pending, expired. cbn.
        now apply negb_true_iff, N.leb_gt.
    + right. repeat split.
      * lia.
      * intros Hf. apply filter_In in Hf as [Hf _]. tauto.
      * lia.
Qed.

Lemma timed_steps opCtx ctx s0 c dl ls : forall cur cur',
  suspended cur = false -> selects (handler cur) = false ->
  timed s0 c dl cur ->
  steps opCtx ctx cur ls = Some cur' ->
  suspended cur' = false /\ selects (handler cur') = false /\
  timed s0 c dl cur' /\ now cur' = (now cur + elapsed ls)%N.
Proof.
  induction ls as [|l ls IH]; intros cur cur' Hsu Hsel Ht.
  - intros [= <-]. cbn. repeat split; trivial. lia.
  - cbn [steps]. destruct (step opCtx ctx cur l) as [cur1|] eqn:Hstep;
      [|discriminate].
    intros Hsteps.
    destruct (timed_step _ _ _ _ _ _ _ _ Hsu Hsel Ht Hstep)
      as (Hsu1 & Hsel1 & Ht1 & Hnow1).
    destruct (IH cur1 cur' Hsu1 Hsel1 Ht1 Hsteps)
      as (Hsu' & Hsel' & Ht' & Hnow').
    repeat split; trivial.
    rewrite Hnow', Hnow1. destruct l; cbn; lia.
Qed.

Lemma quiet_server_total opCtx ctx ls : forall s,
  suspended s = false -> selects (handler s) = false ->
  exists s', steps opCtx ctx s ls = Some s'.
Proof.
  induction ls as [|l ls IH]; intros s Hsu Hsel; [now exists s|].
  cbn [steps].
  destruct (step opCtx ctx s l) as [s1|] eqn:Hstep.
  - assert (suspended s1 = false /\ selects (handler s1) = false) as [H1 H2].
    { destruct s as [h w d su se t de out]. cbn in Hsu, Hsel. subst su.
      destruct l as [choice|c'| |dt]; cbn [step suspended handler] in Hstep;
        rewrite ?Hsel in Hstep; inversion Hstep; subst; sys_fields;
        try (split; [reflexivity | assumption]).
      unfold fire. sys_fields.
      pose proof (invoke_keeps_kind opCtx ctx h choice w) as Hkind.
      destruct (invoke opCtx ctx h choice w) as [[o h'] w']. cbn in Hkind.
      sys_fields. cbn. split; congruence. }
    now apply IH.
  - exfalso. destruct s as [h w d su se t de out]. cbn in Hsu, Hsel. subst su.
    destruct l; cbn [step suspended handler] in Hstep; rewrite ?Hsel in Hstep;
      discriminate.
Qed.

(** X6: the handlers of [NewError] never wait on a channel.  So on such a
    server no send is ever received: whatever the host and other drivers do
    meanwhile (handler calls included), a [SendNextSubscriptionMessage] or
    [SendCompleteSubscriptionMessage] has printed its warning and returned
    once a second has passed, and no handler call ever blocks. *)
Theorem NewError_sends_always_time_out (opCtx opCtx' : OperationContext)
    (ctx : Ctx) (s : Sys) (c : chan) (ls : list label) :
  selects (NewError_ExecFunc opCtx') = false /\
  (suspended s = false -> selects (handler s) = false ->
   (Second <= elapsed ls)%N ->
   exists s' k,
     steps opCtx ctx s (Send c :: ls) = Some s' /\
     1 <= k /\ stdout s' = (stdout s ++ repeat WARNING k)%list /\
     ~ In (c, (now s + Second)%N) (senders s') /\
     suspended s' = false).
Proof.
  split; [apply NewError_never_selects|].
  intros Hsu Hsel Hel.
  destruct s as [h w d su se t de out]. cbn in Hsu, Hsel. subst su.
  set (s := mkSys h w d false se t de out).
  set (s1 := mkSys h w d false (se ++ [(c, (t + Second)%N)]) t de out).
  assert (timed s c (t + Second) s1) as Ht.
  { exists 0. split; [cbn; now rewrite app_nil_r|]. left.
    split; [apply in_or_app; right; now left | cbn; unfold Second; lia]. }
  destruct (quiet_server_total opCtx ctx ls s1 eq_refl Hsel) as [s' Hsteps].
  destruct (timed_steps opCtx ctx s c (t + Second) ls s1 s' eq_refl Hsel Ht
              Hsteps) as (Hsu' & _ & (k & Hout & Hk) & Hnow).
  exists s', k. cbn [steps step suspended]. fold s1.
  cbn in Hnow.
  destruct Hk as [[_ Hlt]|(Hk & Hnin & _)]; [lia|].
  repeat split; assumption.
Qed.

Lemma NewError_sends_always_time_out_witness :
  exists s' k,
    steps errorQuery background (start (NewError_ExecFunc errorQuery))
      [Send next; Call Next; Advance Second; Call Next] = Some s' /\
    1 <= k /\ stdout s' = repeat WARNING k /\
    ~ In (next, Second) (senders s') /\
    suspended s' = false.
Proof.
  apply (proj2 (NewError_sends_always_time_out errorQuery errorQuery background
                  (start (NewError_ExecFunc errorQuery)) next
                  [Call Next; Advance Second; Call Next])).
  - reflexivity.
  - reflexivity.
  - cbn. lia.
Defined.

(** ** [NewError]: the query handler and the rejected operations *)

(** X7: the query handler of [NewError] records its error once: the first
    call appends exactly one error, ["resolver error"], to the response
    context and returns [null]; every later call returns nil and records
    nothing. *)
Theorem NewError_records_once (opCtx : OperationContext) (ctx : Ctx)
    (ev : chan_event) (evs : list chan_event) (w : World) :
  op_Operation (Operation_ opCtx) = Query ->
  exists w',
    drive opCtx ctx (NewError_ExecFunc opCtx) (ev :: evs) w =
      ((Returned (Some (mkResponse data_null None []))
          :: repeat (Returned None) (length evs),
        ErrorQueryHandler true), w') /\
    map Message (recorded w') =
      (map Message (recorded w) ++ ["resolver error"])%list /\
    resolutions w' = resolutions w.
Proof.
  intros Hq. unfold NewError_ExecFunc. rewrite Hq.
  change (String.eqb Query Query) with true. cbv iota.
  rewrite drive_cons. cbn [invoke]. unfold bind, AddError.
  cbn [ret fst snd]. rewrite closed_drive by reflexivity.
  eexists. split; [reflexivity|]. cbn [recorded resolutions].
  rewrite map_app. now split.
Qed.

Lemma NewError_records_once_witness :
  exists w',
    drive errorQuery background (NewError_ExecFunc errorQuery)
      [Next; Next; Next] w0 =
      (([Returned (Some (mkResponse data_null None []));
         Returned None; Returned None],
        ErrorQueryHandler true), w') /\
    map Message (recorded w') = ["resolver error"] /\
    resolutions w' = [].
Proof.
  apply (NewError_records_once errorQuery background Next [Next; Next] w0).
  reflexivity.
Defined.

(** X8: [NewError] rejects everything but queries, subscriptions included:
    the first call returns one error whose message is fixed by the operation
    kind, every later call returns nil. *)
Theorem NewError_rejects_other_operations (opCtx : OperationContext)
    (ctx : Ctx) (ev : chan_event) (evs : list chan_event) (w : World) :
  op_Operation (Operation_ opCtx) <> Query ->
  exists resp,
    drive opCtx ctx (NewError_ExecFunc opCtx) (ev :: evs) w =
      ((Returned (Some resp) :: repeat (Returned None) (length evs),
        OneShotHandler resp true), w) /\
    Data resp = EmptyString /\
    map Message (Errors resp) =
      [if String.eqb (op_Operation (Operation_ opCtx)) Mutation
       then "mutations are not supported"
       else if String.eqb (op_Operation (Operation_ opCtx)) Subscription
       then "subscription are not supported"
       else "unsupported GraphQL operation"].
Proof.
  intros Hq. apply String.eqb_neq in Hq. unfold NewError_ExecFunc.
  rewrite Hq.
  destruct (String.eqb _ Mutation); [|destruct (String.eqb _ Subscription)];
    rewrite OneShot_drive; eexists; repeat split.
Qed.

Lemma NewError_rejects_other_operations_witness :
  exists resp,
    drive subscription background (NewError_ExecFunc subscription)
      [Next; Next] w0 =
      (([Returned (Some resp); Returned None], OneShotHandler resp true), w0) /\
    Data resp = EmptyString /\
    map Message (Errors resp) = ["subscription are not supported"].
Proof.
  apply (NewError_rejects_other_operations subscription background Next [Next]
           w0).
  discriminate.
Defined.

(** * The generated enums *)

Lemma EnumTest_IsValid_In (e : EnumTest) :
  EnumTest_IsValid e = true <-> In e AllEnumTest.
Proof.
  unfold EnumTest_IsValid, AllEnumTest.
  destruct (String.eqb_spec e EnumTestOk) as [->|H1]; [cbn; tauto|].
  destruct (String.eqb_spec e EnumTestNg) as [->|H2]; [cbn; tauto|].
  split; [discriminate|]. intros [H|[H|[]]]; congruence.
Qed.

Lemma Status_IsValid_In (e : Status) :
  Status_IsValid e = true <-> In e AllStatus.
Proof.
  unfold Status_IsValid, AllStatus.
  destruct (String.eqb_spec e StatusOk) as [->|H1]; [cbn; tauto|].
  destruct (String.eqb_spec e StatusError) as [->|H2]; [cbn; tauto|].
  split; [discriminate|]. intros [H|[H|[]]]; congruence.
Qed.

(** X9: [UnmarshalGQL] succeeds exactly on a string listed in
    [AllEnumTest] (resp. [AllStatus]) and then stores it.  On a value that
    is not a string it leaves the receiver alone, but on a string that is
    not listed it reports the error after having overwritten the receiver
    with that string. *)
Theorem UnmarshalGQL_accepts_listed (e : string) (v : input_value) :
  (snd (EnumTest_UnmarshalGQL e v) = None <->
     exists x, v = InString x /\ In x AllEnumTest) /\
  (snd (Status_UnmarshalGQL e v) = None <->
     exists x, v = InString x /\ In x AllStatus) /\
  (forall x, v = InString x ->
     fst (EnumTest_UnmarshalGQL e v) = x /\
     fst (Status_UnmarshalGQL e v) = x) /\
  ((forall x, v <> InString x) ->
     EnumTest_UnmarshalGQL e v = (e, Some "enums must be strings") /\
     Status_UnmarshalGQL e v = (e, Some "enums must be strings")).
Proof.
  repeat split.
  - destruct v as [x| | |]; cbn; try discriminate.
    destruct (EnumTest_IsValid x) eqn:Hv; [|discriminate].
    intros _. exists x. split; [reflexivity | now apply EnumTest_IsValid_In].
  - intros (x & -> & Hin). apply EnumTest_IsValid_In in Hin. cbn.
    now rewrite Hin.
  - destruct v as [x| | |]; cbn; try discriminate.
    destruct (Status_IsValid x) eqn:Hv; [|discriminate].
    intros _. exists x. split; [reflexivity | now apply Status_IsValid_In].
  - intros (x & -> & Hin). apply Status_IsValid_In in Hin. cbn.
    now rewrite Hin.
  - subst v. cbn. now destruct (EnumTest_IsValid x).
  - subst v. cbn. now destruct (Status_IsValid x).
  - destruct v as [x| | |]; try reflexivity. now destruct (H x).
  - destruct v as [x| | |]; try reflexivity. now destruct (H x).
Qed.

Lemma UnmarshalGQL_accepts_listed_witness :
  fst (EnumTest_UnmarshalGQL EnumTestOk (InString "ERROR")) = "ERROR" /\
  fst (Status_UnmarshalGQL EnumTestOk (InString "ERROR")) = "ERROR".
Proof.
  apply (proj1 (proj2 (proj2 (UnmarshalGQL_accepts_listed EnumTestOk
                                (InString "ERROR")))) "ERROR" eq_refl).
Defined.

Lemma strip_closing_app (s : string) :
  strip_closing (s ++ dquote) = Some s.
Proof.
  induction s as [|a s IH]; [reflexivity|].
  cbn [append strip_closing]. rewrite IH.
  destruct (s ++ dquote) eqn:Hs; [|reflexivity].
  destruct s; discriminate.
Qed.

Lemma unquote_quote_plain (s : string) : unquote_plain (quote_plain s) = inl s.
Proof.
  unfold quote_plain, unquote_plain, dquote. cbn [append].
  rewrite Ascii.eqb_refl.
  change (String (ascii_of_nat 34) EmptyString) with dquote.
  now rewrite strip_closing_app.
Qed.

(** X10: [MarshalJSON] never fails and never checks the value, so with
    [strconv.Unquote] undoing [strconv.Quote], [UnmarshalJSON] reads back
    what [MarshalJSON] wrote exactly when the value was a valid one; an
    invalid value (the zero value [""], say) is written without complaint
    and refused when read. *)
Theorem enum_JSON_round_trip (Quote : string -> string)
    (Unquote : string -> string + string) (e0 e : string) :
  (forall s, Unquote (Quote s) = inl s) ->
  snd (EnumTest_MarshalJSON Quote e) = None /\
  snd (Status_MarshalJSON Quote e) = None /\
  (EnumTest_IsValid e = true ->
     EnumTest_UnmarshalJSON Unquote e0 (fst (EnumTest_MarshalJSON Quote e))
       = (e, None)) /\
  (EnumTest_IsValid e = false ->
     EnumTest_UnmarshalJSON Unquote e0 (fst (EnumTest_MarshalJSON Quote e))
       = (e, Some (e ++ " is not a valid EnumTest"))) /\
  (Status_IsValid e = true ->
     Status_UnmarshalJSON Unquote e0 (fst (Status_MarshalJSON Quote e))
       = (e, None)) /\
  (Status_IsValid e = false ->
     Status_UnmarshalJSON Unquote e0 (fst (Status_MarshalJSON Quote e))
       = (e, Some (e ++ " is not a valid Status"))).
Proof.
  intros Hrt.
  unfold EnumTest_UnmarshalJSON, EnumTest_MarshalJSON, EnumTest_MarshalGQL,
    Status_UnmarshalJSON, Status_MarshalJSON, Status_MarshalGQL,
    EnumTest_String, Status_String.
  cbn [fst snd append]. rewrite Hrt. cbn.
  repeat split; intros ->; reflexivity.
Qed.

Lemma enum_JSON_round_trip_witness :
  EnumTest_UnmarshalJSON unquote_plain EnumTestOk
    (fst (EnumTest_MarshalJSON quote_plain EnumTestNg)) = (EnumTestNg, None).
Proof.
  apply (proj1 (proj2 (proj2 (enum_JSON_round_trip quote_plain unquote_plain
                                EnumTestOk EnumTestNg unquote_quote_plain)))).
  reflexivity.
Defined.

(** * [buildInterface] *)

(** ** The stable sort *)

Section StableSort.

Context {A : Type}.
Variable less : A -> A -> bool.

Lemma insert_stable_perm x l : Permutation (insert_stable less x l) (x :: l).
Proof.
  induction l as [|y l IH]; cbn; [reflexivity|].
  destruct (less y x); [|reflexivity].
  rewrite IH. apply perm_swap.
Qed.

Lemma SliceStable_perm l : Permutation (SliceStable less l) l.
Proof.
  induction l as [|x l IH]; cbn; [reflexivity|].
  rewrite insert_stable_perm. now constructor.
Qed.

Hypothesis less_asym : forall a b, less a b = true -> less b a = false.

Lemma insert_stable_sorted x l :
  Sorted (fun a b => less b a = false) l ->
  Sorted (fun a b => less b a = false) (insert_stable less x l).
Proof.
  induction l as [|y l IH]; intros Hs; cbn.
  - repeat constructor.
  - inversion Hs as [|y' l' Hl Hhd]; subst.
    destruct (less y x) eqn:Hyx.
    + constructor; [now apply IH|].
      destruct l as [|z l]; cbn.
      * constructor. now apply less_asym.
      * inversion Hhd; subst. destruct (less z x); constructor;
          [assumption | now apply less_asym].
    + constructor; [assumption|]. now constructor.
Qed.

Lemma SliceStable_sorted l :
  Sorted (fun a b => less b a = false) (SliceStable less l).
Proof.
  induction l as [|x l IH]; cbn; [constructor|].
  now apply insert_stable_sorted.
Qed.

Variable same : A -> A -> bool.
Hypothesis same_not_less : forall a y, same a y = true -> less y a = false.
Hypothesis same_less : forall a x y, same a x = true -> less y x = less y a.

Lemma insert_stable_filter a x l :
  filter (same a) (insert_stable less x l) = filter (same a) (x :: l).
Proof.
  induction l as [|y l IH]; [reflexivity|].
  cbn [insert_stable]. destruct (less y x) eqn:Hyx; [|reflexivity].
  cbn [filter] in *. rewrite IH.
  destruct (same a x) eqn:Hax; [|reflexivity].
  destruct (same a y) eqn:Hay; [|reflexivity].
  rewrite (same_less a x y Hax), (same_not_less a y Hay) in Hyx.
  discriminate.
Qed.

Lemma SliceStable_filter a l :
  filter (same a) (SliceStable less l) = filter (same a) l.
Proof.
  induction l as [|x l IH]; [reflexivity|].
  cbn [SliceStable]. rewrite insert_stable_filter. cbn. now rewrite IH.
Qed.

End StableSort.

(** ** The comparison of implementors *)

Lemma string_compare_refl (s : string) : String.compare s s = Eq.
Proof.
  pose proof (String.compare_antisym s s) as H.
  destruct (String.compare s s); [reflexivity | discriminate H ..].
Qed.

Lemma implementor_less_spec (a b : TypeDef) :
  implementor_less a b = true <->
  length (td_Interfaces b) < length (td_Interfaces a) \/
  (length (td_Interfaces a) = length (td_Interfaces b) /\
   String.compare (td_Name a) (td_Name b) = Gt).
Proof.
  unfold implementor_less, string_gtb.
  destruct (Nat.eqb_spec (length (td_Interfaces a)) (length (td_Interfaces b)))
    as [He|Hne]; cbn [negb].
  - destruct (String.compare (td_Name a) (td_Name b)); split;
      try discriminate; try tauto; intros [H|[_ H]]; try lia; discriminate.
  - rewrite Nat.ltb_lt. split; [tauto|]. intros [H|[H _]]; [assumption|lia].
Qed.

Lemma implementor_less_asym (a b : TypeDef) :
  implementor_less a b = true -> implementor_less b a = false.
Proof.
  intros Hab. destruct (implementor_less b a) eqn:Hba; [|reflexivity].
  apply implementor_less_spec in Hab, Hba.
  destruct Hab as [Hab|[Hab Hc]], Hba as [Hba|[Hba Hc']]; try lia.
  rewrite String.compare_antisym, Hc' in Hc. discriminate.
Qed.

Lemma same_rank_spec (a b : TypeDef) :
  same_rank a b = true <->
  length (td_Interfaces a) = length (td_Interfaces b) /\ td_Name a = td_Name b.
Proof.
  unfold same_rank. rewrite andb_true_iff, !negb_true_iff. split.
  - intros [Hab Hba].
    assert (length (td_Interfaces a) = length (td_Interfaces b)) as Hlen.
    { destruct (Nat.lt_trichotomy (length (td_Interfaces a))
                  (length (td_Interfaces b))) as [H|[H|H]]; [|assumption|].
      - assert (implementor_less b a = true) as H'
          by (apply implementor_less_spec; now left).
        congruence.
      - assert (implementor_less a b = true) as H'
          by (apply implementor_less_spec; now left).
        congruence. }
    split; [assumption|].
    apply String.compare_eq_iff.
    destruct (String.compare (td_Name a) (td_Name b)) eqn:Hc; [reflexivity| |].
    + assert (implementor_less b a = true) as H'.
      { apply implementor_less_spec. right. split; [now symmetry|].
        now rewrite String.compare_antisym, Hc. }
      congruence.
    + assert (implementor_less a b = true) as H'
        by (apply implementor_less_spec; now right).
      congruence.
  - intros [Hlen Hname].
    assert (forall x y, length (td_Interfaces x) = length (td_Interfaces y) ->
                        td_Name x = td_Name y -> implementor_less x y = false)
      as Hno.
    { intros x y Hl Hn. destruct (implementor_less x y) eqn:Hxy; [|reflexivity].
      apply implementor_less_spec in Hxy as [H|[_ H]]; [lia|].
      rewrite Hn, string_compare_refl in H. discriminate. }
    split; apply Hno; congruence.
Qed.

Lemma same_rank_less (a x y : TypeDef) :
  same_rank a x = true -> implementor_less y x = implementor_less y a.
Proof.
  intros H. apply same_rank_spec in H as [Hlen Hname].
  unfold implementor_less. now rewrite Hlen, Hname.
Qed.

Lemma same_rank_not_less (a y : TypeDef) :
  same_rank a y = true -> implementor_less y a = false.
Proof.
  unfold same_rank. rewrite andb_true_iff, !negb_true_iff. tauto.
Qed.

Lemma implementors_sorted_stably_aux (l : list TypeDef) :
  Permutation (SliceStable implementor_less l) l /\
  StronglySorted
    (fun a b => length (td_Interfaces b) <= length (td_Interfaces a))
    (SliceStable implementor_less l).
Proof.
  split; [apply SliceStable_perm|].
  assert (Sorted (fun a b => implementor_less b a = false)
            (SliceStable implementor_less l)) as Hs
    by (apply SliceStable_sorted; exact implementor_less_asym).
  apply Sorted_StronglySorted; [intros a b c; lia|].
  induction Hs as [|a l' Hl IH Hhd]; constructor; [assumption|].
  destruct Hhd as [|b l'' Hba]; constructor.
  destruct (Nat.le_gt_cases (length (td_Interfaces b))
              (length (td_Interfaces a))) as [H|H]; [assumption|].
  assert (implementor_less b a = true) as H'
    by (apply implementor_less_spec; now left).
  congruence.
Qed.

(** X11: the implementors are put in an order in which no definition is
    followed by one the comparison ranks strictly before it (more
    interfaces first, and among equally many the greater name first); the
    sorted list has the same elements, and definitions the comparison cannot
    tell apart (same number of interfaces, same name) keep their order. *)
Theorem implementors_sorted_stably (l : list TypeDef) :
  Permutation (SliceStable implementor_less l) l /\
  Sorted (fun a b => implementor_less b a = false)
    (SliceStable implementor_less l) /\
  StronglySorted
    (fun a b => length (td_Interfaces b) <= length (td_Interfaces a))
    (SliceStable implementor_less l) /\
  (forall a, filter (same_rank a) (SliceStable implementor_less l)
             = filter (same_rank a) l).
Proof.
  split; [apply SliceStable_perm|].
  assert (Sorted (fun a b => implementor_less b a = false)
            (SliceStable implementor_less l)) as Hs
    by (apply SliceStable_sorted; exact implementor_less_asym).
  split; [exact Hs|]. split.
  - apply implementors_sorted_stably_aux.
  - intros a. apply SliceStable_filter.
    + exact same_rank_not_less.
    + exact same_rank_less.
Qed.

(** ** The loop over the implementors *)

Section BuildInterfaceFacts.

Variable GoType : Type.
Variable GoInterface : Type.
Variable TypeString : GoType -> string.
Variable NewPointer : GoType -> GoType.
Variable Implements : GoType -> GoInterface -> bool.
Variable IsInterface : GoType -> bool.
Variable DefaultUserObject : string -> GoType + string.
Variable UserDefined : string -> bool.
Variable findGoInterface : GoType -> option GoInterface * option string.
Variable findGoNamedType : GoType -> option GoType * option string.
Variable GetPossibleTypes : TypeDef -> list TypeDef.

Local Abbreviation entries :=
  (implementor_entries GoType GoInterface TypeString NewPointer Implements
     IsInterface DefaultUserObject findGoNamedType).
Local Abbreviation loop :=
  (implementors_loop GoType GoInterface TypeString NewPointer Implements
     IsInterface DefaultUserObject findGoNamedType).
Local Abbreviation build :=
  (buildInterface GoType GoInterface TypeString NewPointer Implements
     IsInterface DefaultUserObject UserDefined findGoInterface findGoNamedType
     GetPossibleTypes).
Local Abbreviation ok :=
  (satisfies GoType GoInterface NewPointer Implements DefaultUserObject
     findGoNamedType).
Local Abbreviation def := (ii_Definition GoType).

Lemma entries_ok it ty d es :
  entries it ty d = inl es ->
  ok it d /\ es <> [] /\ length es <= 2 /\ Forall (fun e => def e = d) es.
Proof.
  unfold implementor_entries, satisfies.
  destruct (DefaultUserObject (td_Name d)) as [obj|e] eqn:Hobj; [|discriminate].
  destruct (findGoNamedType obj) as [[named|] [err|]] eqn:Hnamed;
    try discriminate.
  destruct (Implements named it) eqn:Hv,
           (Implements (NewPointer named) it) eqn:Hp;
    cbn; try discriminate; intros [= <-];
    (split; [exists obj, named; rewrite Hv, Hp; now repeat split|]);
    (split; [discriminate|]); (split; [cbn; lia|]); repeat constructor.
Qed.

Lemma entries_types it ty d es :
  entries it ty d = inl es ->
  exists obj,
    DefaultUserObject (td_Name d) = inl obj /\
    (es = [mkInterfaceImplementor GoType d obj (negb (IsInterface obj))] \/
     es = [mkInterfaceImplementor GoType d (NewPointer obj) false] \/
     es = [mkInterfaceImplementor GoType d obj (negb (IsInterface obj));
           mkInterfaceImplementor GoType d (NewPointer obj) false]).
Proof.
  unfold implementor_entries.
  destruct (DefaultUserObject (td_Name d)) as [obj|e]; [|discriminate].
  destruct (findGoNamedType obj) as [[named|] [err|]]; try discriminate.
  destruct (Implements named it), (Implements (NewPointer named) it);
    cbn; try discriminate; intros [= <-]; exists obj; tauto.
Qed.

Lemma ok_entries it ty d : ok it d -> exists es, entries it ty d = inl es.
Proof.
  intros (obj & named & Hobj & Hnamed & Himpl).
  unfold implementor_entries. rewrite Hobj, Hnamed, Himpl. eauto.
Qed.

Lemma loop_spec it ty impls : forall acc res,
  loop it ty impls acc = inl res ->
  exists ess,
    Forall2 (fun d es => entries it ty d = inl es) impls ess /\
    res = (acc ++ concat ess)%list.
Proof.
  induction impls as [|d impls IH]; intros acc res; cbn [implementors_loop].
  - intros [= <-]. exists []. split; [constructor | now rewrite app_nil_r].
  - destruct (entries it ty d) as [es|e] eqn:He; [|discriminate].
    intros Hl. destruct (IH _ _ Hl) as (ess & Hall & ->).
    exists (es :: ess). split; [now constructor|].
    cbn. now rewrite app_assoc.
Qed.

Lemma loop_total it ty impls : forall acc,
  Forall (ok it) impls -> exists res, loop it ty impls acc = inl res.
Proof.
  induction impls as [|d impls IH]; intros acc Hall; cbn [implementors_loop].
  - eauto.
  - inversion Hall as [|d' l' Hd Hl]; subst.
    destruct (ok_entries it ty d Hd) as [es ->]. now apply IH.
Qed.

Lemma entries_expand it ty impls ess :
  Forall2 (fun d es => entries it ty d = inl es) impls ess ->
  Forall (ok it) impls /\
  (forall d, In d impls <-> In d (map def (concat ess))) /\
  length impls <= length (concat ess) <= 2 * length impls.
Proof.
  induction 1 as [|d es impls ess He Hall IH]; cbn.
  - repeat split; trivial; tauto.
  - destruct IH as (Hok & Hin & Hlen).
    destruct (entries_ok _ _ _ _ He) as (Hd & Hne & Hle & Hdefs).
    split; [now constructor|]. split.
    + intros d'. rewrite map_app, in_app_iff, <- Hin. split.
      * intros [<-|H']; [left|now right].
        destruct es as [|e es]; [contradiction|].
        inversion Hdefs; subst. now left.
      * intros [H'|H']; [left|now right].
        apply in_map_iff in H' as (e & <- & He').
        symmetry. now apply (proj1 (Forall_forall _ _) Hdefs).
    + rewrite length_app.
      assert (1 <= length es) by (destruct es; [contradiction | cbn; lia]).
      lia.
Qed.

Lemma entries_sorted it ty (R : TypeDef -> TypeDef -> Prop) impls ess :
  (forall d, R d d) ->
  Forall2 (fun d es => entries it ty d = inl es) impls ess ->
  StronglySorted R impls ->
  StronglySorted (fun a b => R (def a) (def b)) (concat ess).
Proof.
  intros Hrefl. induction 1 as [|d es impls ess He Hall IH]; cbn;
    [constructor|].
  intros Hs. inversion Hs as [|d' l' Hs' Hd]; subst.
  specialize (IH Hs').
  destruct (entries_ok _ _ _ _ He) as (_ & _ & _ & Hdefs).
  destruct (entries_expand _ _ _ _ Hall) as (_ & Hin & _).
  assert (Forall (fun b => R d (def b)) (concat ess)) as Hafter.
  { apply Forall_forall. intros b Hb.
    apply (proj1 (Forall_forall _ _) Hd).
    apply Hin. now apply in_map. }
  clear He. induction Hdefs as [|e es Hde Hes IHes]; [assumption|].
  cbn. constructor; [assumption|].
  apply Forall_app. split.
  - apply Forall_forall. intros b Hb.
    rewrite Hde, (proj1 (Forall_forall _ _) Hes b Hb). apply Hrefl.
  - rewrite Hde. exact Hafter.
Qed.

Lemma entries_exact it ty d es :
  entries it ty d = inl es ->
  exists obj named,
    DefaultUserObject (td_Name d) = inl obj /\
    findGoNamedType obj = (Some named, None) /\
    es = ((if Implements named it
           then [mkInterfaceImplementor GoType d obj (negb (IsInterface obj))]
           else []) ++
          (if Implements (NewPointer named) it
           then [mkInterfaceImplementor GoType d (NewPointer obj) false]
           else []))%list /\
    1 <= length es <= 2.
Proof.
  unfold implementor_entries.
  destruct (DefaultUserObject (td_Name d)) as [obj|e]; [|discriminate].
  destruct (findGoNamedType obj) as [[named|] [err|]] eqn:Hnamed;
    try discriminate.
  destruct (Implements named it) eqn:Hv,
           (Implements (NewPointer named) it) eqn:Hp;
    cbn; try discriminate; intros [= <-]; exists obj, named;
    rewrite Hv, Hp; repeat split; cbn; (reflexivity || assumption || lia).
Qed.

(** X12: when [buildInterface] succeeds, its [Implementors] are made of one
    group of entries per possible type, the groups in the sorted order of the
    types (those implementing more interfaces first).  The group of a type
    holds a by-value entry exactly when its backing named type implements
    the interface, then a by-pointer entry exactly when the pointer to it
    does; it has one or two entries.  Hence the list covers the possible
    types and nothing else; an entry's type is the backing type of its
    definition or a pointer to it, and [TakeRef] is set only on a by-value
    entry of a type that is not itself an interface. *)
Theorem buildInterface_implementors (typ : TypeDef)
    (i : Interface GoType) :
  build typ = Built i ->
  (exists obj0 it ess,
     DefaultUserObject (td_Name typ) = inl obj0 /\
     findGoInterface obj0 = (Some it, None) /\
     i_Type GoType i = obj0 /\
     Implementors GoType i = concat ess /\
     Forall2
       (fun d es =>
          exists obj named,
            DefaultUserObject (td_Name d) = inl obj /\
            findGoNamedType obj = (Some named, None) /\
            es = ((if Implements named it
                   then [mkInterfaceImplementor GoType d obj
                           (negb (IsInterface obj))]
                   else []) ++
                  (if Implements (NewPointer named) it
                   then [mkInterfaceImplementor GoType d (NewPointer obj) false]
                   else []))%list /\
            1 <= length es <= 2)
       (SliceStable implementor_less (GetPossibleTypes typ)) ess) /\
  (forall d, In d (GetPossibleTypes typ) <->
             In d (map def (Implementors GoType i))) /\
  length (GetPossibleTypes typ) <= length (Implementors GoType i)
    <= 2 * length (GetPossibleTypes typ) /\
  StronglySorted
    (fun a b => length (td_Interfaces (def b)) <= length (td_Interfaces (def a)))
    (Implementors GoType i) /\
  i_Definition GoType i = typ /\
  InTypemap GoType i = UserDefined (td_Name typ) /\
  Forall (fun e =>
            exists obj,
              DefaultUserObject (td_Name (def e)) = inl obj /\
              ((ii_Type GoType e = obj /\
                TakeRef GoType e = negb (IsInterface obj)) \/
               (ii_Type GoType e = NewPointer obj /\
                TakeRef GoType e = false)))
    (Implementors GoType i).
Proof.
  unfold buildInterface.
  destruct (DefaultUserObject (td_Name typ)) as [obj|e] eqn:Hobj;
    [|discriminate].
  destruct (findGoInterface obj) as [[it|] [err|]] eqn:Hit; try discriminate.
  destruct (loop it obj _ []) as [impls|e] eqn:Hl; [|discriminate].
  intros [= <-]. cbn [Implementors i_Definition InTypemap i_Type].
  destruct (loop_spec _ _ _ _ _ Hl) as (ess & Hall & ->). cbn [app].
  destruct (entries_expand _ _ _ _ Hall) as (_ & Hin & Hlen).
  destruct (implementors_sorted_stably_aux (GetPossibleTypes typ))
    as (Hperm & Hss).
  split.
  { exists obj, it, ess. repeat split; trivial.
    eapply Forall2_impl; [|exact Hall].
    intros d es He. exact (entries_exact _ _ _ _ He). }
  repeat split; trivial.
  - intros H. apply Hin.
    eapply Permutation_in; [apply Permutation_sym; exact Hperm | exact H].
  - intros H. eapply Permutation_in; [exact Hperm | now apply Hin].
  - rewrite <- (Permutation_length Hperm). lia.
  - rewrite <- (Permutation_length Hperm). lia.
  - eapply (entries_sorted it obj
              (fun a b => length (td_Interfaces b) <= length (td_Interfaces a)));
      [intros d; lia | exact Hall | exact Hss].
  - clear Hl Hin Hlen Hperm Hss.
    induction Hall as [|d es impls ess He Hall IH]; cbn; [constructor|].
    apply Forall_app. split; [|exact IH].
    destruct (entries_types _ _ _ _ He) as (o & Ho & [ -> | [ -> | -> ] ]);
      repeat constructor; exists o; cbn; tauto.
Qed.

(** X13: [buildInterface] succeeds exactly when the type has a backing Go
    type that is an interface and every possible type has a backing named
    type satisfying it by value or by pointer; it panics exactly when the
    type itself has no backing type, and fails with an error otherwise. *)
Theorem buildInterface_succeeds_iff (typ : TypeDef) :
  ((exists i, build typ = Built i) <->
   exists obj it,
     DefaultUserObject (td_Name typ) = inl obj /\
     findGoInterface obj = (Some it, None) /\
     Forall (ok it) (GetPossibleTypes typ)) /\
  ((exists msg, build typ = BuildPanic msg) <->
   exists err, DefaultUserObject (td_Name typ) = inr err).
Proof.
  unfold buildInterface. split.
  - destruct (DefaultUserObject (td_Name typ)) as [obj|e] eqn:Hobj.
    + destruct (findGoInterface obj) as [[it|] [err|]] eqn:Hit.
      1,3,4: split; [intros [i H]; discriminate
                    | intros (o & it' & [= <-] & H & _); congruence].
      split.
      * destruct (loop it obj _ []) as [impls|e] eqn:Hl;
          [|intros [i H]; discriminate].
        intros _. exists obj, it. repeat split; trivial.
        destruct (loop_spec _ _ _ _ _ Hl) as (ess & Hall & _).
        destruct (entries_expand _ _ _ _ Hall) as (Hok & _ & _).
        apply Forall_forall. intros d Hd.
        apply (proj1 (Forall_forall _ _) Hok).
        eapply Permutation_in;
          [apply Permutation_sym, SliceStable_perm | exact Hd].
      * intros (o & it' & [= <-] & Hit' & Hall).
        assert (it' = it) as -> by congruence.
        assert (Forall (ok it)
                  (SliceStable implementor_less (GetPossibleTypes typ))) as Hs.
        { apply Forall_forall. intros d Hd.
          apply (proj1 (Forall_forall _ _) Hall).
          eapply Permutation_in; [apply SliceStable_perm | exact Hd]. }
        destruct (loop_total it obj _ [] Hs) as [res ->]. eauto.
    + split; [intros [i H]; discriminate
             | intros (o & it & H & _); discriminate].
  - destruct (DefaultUserObject (td_Name typ)) as [obj|e].
    + split; [|intros [err H]; discriminate].
      destruct (findGoInterface obj) as [[it|] [err|]];
        try (intros [msg H]; discriminate).
      destruct (loop it obj _ []); intros [msg H]; discriminate.
    + split; eauto.
Qed.

End BuildInterfaceFacts.

Lemma buildInterface_implementors_witness :
  (forall d, In d (sample_possible animalDef) <->
             In d (map (ii_Definition string) (Implementors string builtAnimal))) /\
  length (sample_possible animalDef) <= length (Implementors string builtAnimal)
    <= 2 * length (sample_possible animalDef) /\
  StronglySorted
    (fun a b => length (td_Interfaces (ii_Definition string b))
                <= length (td_Interfaces (ii_Definition string a)))
    (Implementors string builtAnimal) /\
  i_Definition string builtAnimal = animalDef /\
  InTypemap string builtAnimal = sample_user_defined (td_Name animalDef) /\
  Forall (fun e =>
            exists obj,
              sample_object (td_Name (ii_Definition string e)) = inl obj /\
              ((ii_Type string e = obj /\
                TakeRef string e = negb (sample_is_interface obj)) \/
               (ii_Type string e = sample_pointer obj /\
                TakeRef string e = false)))
    (Implementors string builtAnimal).
Proof.
  apply (proj2 (buildInterface_implementors string string (fun t => t)
                  sample_pointer sample_implements sample_is_interface
                  sample_object sample_user_defined sample_interface
                  sample_named sample_possible animalDef builtAnimal eq_refl)).
Defined.

(** * The schema check *)

(** ** [extractYAMLTagName] *)

Lemma Cut_comma (s : string) :
  Contains (fst (fst (Cut s ","))) "," = false /\
  (if snd (Cut s ",")
   then s = fst (fst (Cut s ",")) ++ "," ++ snd (fst (Cut s ","))
   else fst (fst (Cut s ",")) = s /\ snd (fst (Cut s ",")) = EmptyString).
Proof.
  induction s as [|c s IH]; [cbn; tauto|].
  cbn [Cut HasPrefix].
  assert (HasPrefix s EmptyString = true) as -> by now destruct s.
  rewrite andb_true_r.
  destruct (Ascii.eqb_spec "," c) as [<-|Hc].
  - cbn. tauto.
  - destruct (Cut s ",") as [[before after] found]. cbn [fst snd] in IH.
    destruct IH as [Hno Hcut].
    assert (Ascii.eqb "," c = false) as Hc' by now apply Ascii.eqb_neq.
    destruct found; cbn [fst snd].
    + split.
      * cbn [Contains HasPrefix]. now rewrite Hc'.
      * cbn [append]. now rewrite Hcut.
    + destruct Hcut as [-> _]. split; [|tauto].
      cbn [Contains HasPrefix]. now rewrite Hc'.
Qed.

(** X14: [extractYAMLTagName] returns the yaml tag up to its first comma:
    the result never contains a comma, it is the whole tag when the tag has
    none, and otherwise the tag is the result, a comma, and a rest.  The
    tags [""] and ["-"] give [""]; so does a tag that starts with a comma,
    while ["-,"] gives ["-"]. *)
Theorem extractYAMLTagName_first_comma (field : StructField) :
  Contains (extractYAMLTagName field) "," = false /\
  (sf_yaml field = EmptyString \/ sf_yaml field = "-" ->
     extractYAMLTagName field = EmptyString) /\
  (sf_yaml field <> "-" ->
     (Contains (sf_yaml field) "," = false /\
      extractYAMLTagName field = sf_yaml field) \/
     exists rest,
       sf_yaml field = extractYAMLTagName field ++ "," ++ rest) /\
  (forall rest, sf_yaml field = "-," ++ rest -> extractYAMLTagName field = "-") /\
  (forall rest, sf_yaml field = "," ++ rest ->
     extractYAMLTagName field = EmptyString).
Proof.
  unfold extractYAMLTagName.
  destruct (Cut_comma (sf_yaml field)) as [Hno Hcut].
  repeat split.
  - destruct (_ || _); [reflexivity | assumption].
  - intros [->| ->]; reflexivity.
  - intros Hdash.
    destruct (String.eqb_spec (sf_yaml field) EmptyString) as [He|He].
    + left. rewrite He. now split.
    + destruct (String.eqb_spec (sf_yaml field) "-") as [Hd|Hd]; [contradiction|].
      cbn [orb].
      destruct (snd (Cut (sf_yaml field) ",")).
      * right. eexists. exact Hcut.
      * left. destruct Hcut as [Hcut _]. rewrite Hcut in Hno |- *. now split.
  - intros rest ->. cbn. now destruct rest.
  - intros rest ->. cbn. now destruct rest.
Qed.

Lemma extractYAMLTagName_first_comma_witness :
  extractYAMLTagName (mkStructField "Exec" "exec,omitempty" (ROther "string"))
    = "exec" /\
  extractYAMLTagName (mkStructField "Dash" "-,inline" (ROther "string")) = "-".
Proof.
  split.
  - reflexivity.
  - apply (proj1 (proj2 (proj2 (proj2 (extractYAMLTagName_first_comma
             (mkStructField "Dash" "-,inline" (ROther "string"))))))
             "inline").
    reflexivity.
Defined.

(** ** [resolveSchemaProps] *)

Lemma depth_props_eq ps :
  (fix depths (l : list (string * jsonSchemaProperty)) : nat :=
     match l with
     | [] => 0
     | (_, q) :: l' => Nat.max (depth q) (depths l')
     end) ps = depth_props ps.
Proof. induction ps as [|[k q] ps IH]; cbn; congruence. Qed.

Lemma depth_node ps ap it :
  depth (mkProperty ps ap it) =
  S (Nat.max (depth_props ps)
       (Nat.max (match ap with Some a => depth a | None => 0 end)
                (match it with Some a => depth a | None => 0 end))).
Proof. cbn [depth]. now rewrite depth_props_eq. Qed.

Lemma depth_Properties p : depth_props (Properties p) < depth p.
Proof. destruct p as [ps ap it]. rewrite depth_node. cbn. lia. Qed.

Lemma lookup_depth k props prop :
  lookup k props = Some prop -> depth prop <= depth_props props.
Proof.
  induction props as [|[k' q] props IH]; cbn; [discriminate|].
  destruct (String.eqb k' k); [intros [= ->]; lia|].
  intros H. apply IH in H. lia.
Qed.

Lemma resolveSchemaProps_struct_or_nothing_aux goType prop st :
  fst (resolveSchemaProps goType prop) = Some st ->
  (exists name, st = RStruct name) /\
  depth_props (snd (resolveSchemaProps goType prop)) < depth prop.
Proof.
  unfold resolveSchemaProps.
  destruct (unwrap goType) as [e|n|k e|e|o]; cbn [fst snd]; try discriminate.
  - intros [= <-]. split; [eauto | apply depth_Properties].
  - destruct (unwrap e) as [e'|n|k' e'|e'|o]; cbn [fst snd]; try discriminate.
    destruct prop as [ps [ap|] it]; cbn [AdditionalProperties fst snd];
      [|discriminate].
    intros [= <-]. split; [eauto|].
    pose proof (depth_Properties ap). rewrite depth_node. lia.
  - destruct (unwrap e) as [e'|n|k' e'|e'|o]; cbn [fst snd]; try discriminate.
    destruct prop as [ps ap [it|]]; cbn [Items fst snd]; [|discriminate].
    intros [= <-]. split; [eauto|].
    pose proof (depth_Properties it). rewrite depth_node. lia.
Qed.

(** X15: [resolveSchemaProps] answers with a struct type or with nothing.
    A type it returns is a struct, never a pointer, however many pointers
    wrap the Go type, the map's values or the slice's elements; when it
    returns no type it returns no properties either; and the properties it
    returns lie strictly deeper in the schema than the property given. *)
Theorem resolveSchemaProps_struct_or_nothing (goType : rtype)
    (prop : jsonSchemaProperty) :
  resolveSchemaProps (RPtr goType) prop = resolveSchemaProps goType prop /\
  (forall k elem,
     resolveSchemaProps (RMap k (RPtr elem)) prop
       = resolveSchemaProps (RMap k elem) prop /\
     resolveSchemaProps (RSlice (RPtr elem)) prop
       = resolveSchemaProps (RSlice elem) prop) /\
  (forall st, fst (resolveSchemaProps goType prop) = Some st ->
     (exists name, st = RStruct name) /\
     depth_props (snd (resolveSchemaProps goType prop)) < depth prop) /\
  (fst (resolveSchemaProps goType prop) = None ->
     snd (resolveSchemaProps goType prop) = []).
Proof.
  split; [reflexivity|]. split; [intros k elem; split; reflexivity|].
  unfold resolveSchemaProps.
  destruct (unwrap goType) as [e|n|k e|e|o]; cbn [fst snd].
  - split; [discriminate | reflexivity].
  - split; [|discriminate]. intros st [= <-].
    split; [eauto | apply depth_Properties].
  - destruct (unwrap e) as [e'|n|k' e'|e'|o]; cbn [fst snd];
      try (split; [discriminate | reflexivity]).
    destruct prop as [ps [ap|] it]; cbn [AdditionalProperties fst snd];
      [|split; [discriminate | reflexivity]].
    split; [|discriminate]. intros st [= <-]. split; [eauto|].
    pose proof (depth_Properties ap). rewrite depth_node. lia.
  - destruct (unwrap e) as [e'|n|k' e'|e'|o]; cbn [fst snd];
      try (split; [discriminate | reflexivity]).
    destruct prop as [ps ap [it|]]; cbn [Items fst snd];
      [|split; [discriminate | reflexivity]].
    split; [|discriminate]. intros st [= <-]. split; [eauto|].
    pose proof (depth_Properties it). rewrite depth_node. lia.
  - split; [discriminate | reflexivity].
Qed.

Lemma resolveSchemaProps_struct_or_nothing_witness :
  (exists name, RStruct "TypeMapEntry" = RStruct name) /\
  depth_props
    (snd (resolveSchemaProps (RMap (ROther "string") (RPtr (RStruct "TypeMapEntry")))
            sampleModels)) < depth sampleModels.
Proof.
  apply (proj1 (proj2 (proj2 (resolveSchemaProps_struct_or_nothing
            (RMap (ROther "string") (RPtr (RStruct "TypeMapEntry")))
            sampleModels))) (RStruct "TypeMapEntry")).
  reflexivity.
Defined.

(** ** [checkStructFieldsInSchema] *)

Section SchemaCheckFacts.

Variable fields_of : string -> list StructField.

Local Abbreviation check := (checkStructFieldsInSchema fields_of).

Lemma depth_pos p : 1 <= depth p.
Proof. destruct p. rewrite depth_node. lia. Qed.

Lemma resolve_child t prop st cps :
  resolveSchemaProps t prop = (Some st, cps) ->
  (exists name, st = RStruct name) /\ depth_props cps < depth prop.
Proof.
  intros H.
  destruct (resolveSchemaProps_struct_or_nothing_aux t prop st) as [Hs Hd];
    [now rewrite H|].
  rewrite H in Hd. now split.
Qed.

Lemma check_unfold fuel structName kq props path :
  check fuel (RStruct structName) (kq :: props) path =
  fields_loop (descend fields_of fuel) structName (kq :: props) path
    (fields_of structName).
Proof.
  destruct fuel; reflexivity.
Qed.

Lemma check_total fuel : forall structName props path,
  depth_props props <= fuel ->
  (exists fs, check fuel (RStruct structName) props path = Checked fs) /\
  check (S fuel) (RStruct structName) props path
    = check fuel (RStruct structName) props path.
Proof.
  induction fuel as [|fuel IH]; intros structName props path Hd.
  - destruct props as [|[k q] props]; [cbn; eauto|].
    cbn in Hd. pose proof (depth_pos q). lia.
  - destruct props as [|kq props]; [cbn; eauto|].
    rewrite !check_unfold. cbn [descend].
    generalize (fields_of structName) as l.
    intros l.
    induction l as [|field l IHl];
      [split; [exists []; reflexivity | reflexivity]|].
    destruct IHl as [[fs Hfs] Heq].
    cbn [fields_loop] in *. cbv zeta.
    destruct (String.eqb (extractYAMLTagName field) EmptyString);
      [split; eauto|].
    destruct (lookup (extractYAMLTagName field) (kq :: props))
      as [prop|] eqn:Hl.
    + destruct (resolveSchemaProps (sf_Type field) prop) as [[st|] cps]
        eqn:Hr; [|split; eauto].
      destruct cps as [|kq' cps]; [split; eauto|].
      destruct (resolve_child _ _ _ _ Hr) as [[name ->] Hlt].
      apply lookup_depth in Hl.
      destruct (IH name (kq' :: cps)
                  (path ++ "." ++ extractYAMLTagName field))
        as [[fs1 Hfs1] Heq1]; [lia|].
      rewrite Heq1, Heq, Hfs1, Hfs. cbn. split; eauto.
    + rewrite Heq, Hfs. cbn. split; eauto.
Qed.

Lemma check_more_fuel structName props path fuel : forall extra,
  depth_props props <= fuel ->
  check (extra + fuel) (RStruct structName) props path
    = check fuel (RStruct structName) props path.
Proof.
  induction extra as [|extra IH]; intros Hd; [reflexivity|].
  cbn [Nat.add].
  assert (depth_props props <= extra + fuel) as Hd' by lia.
  rewrite (proj2 (check_total (extra + fuel) structName props path Hd')).
  now apply IH.
Qed.

(** X16: on a struct type the check always ends and never panics, also
    when struct types refer to each other: the recursion follows the
    schema, so a fuel of the nesting depth of the property map is enough and
    more fuel does not change the result.  With an empty property map
    nothing is checked at all, whatever the type. *)
Theorem check_ends_within_schema_depth (structName : string)
    (props : list (string * jsonSchemaProperty)) (path : string)
    (fuel fuel' : nat) :
  depth_props props <= fuel -> fuel <= fuel' ->
  (exists fs,
     check fuel (RStruct structName) props path = Checked fs /\
     check fuel' (RStruct structName) props path = Checked fs) /\
  (forall t, check fuel t [] path = Checked []).
Proof.
  intros Hd Hle. split; [|intros t; now destruct fuel].
  destruct (proj1 (check_total fuel structName props path Hd)) as [fs Hfs].
  exists fs. split; [assumption|].
  replace fuel' with ((fuel' - fuel) + fuel) by lia.
  now rewrite check_more_fuel.
Qed.

Lemma and_then_checked a b fs :
  and_then a b = Checked fs ->
  exists fa fb, a = Checked fa /\ b = Checked fb /\ fs = (fa ++ fb)%list.
Proof.
  destruct a as [fa| |]; try discriminate.
  destruct b as [fb| |]; try discriminate.
  intros [= <-]. eauto.
Qed.

Lemma prefix_app_assoc (path a b : string) :
  (path ++ a) ++ b = path ++ (a ++ b).
Proof. induction path as [|c path IH]; cbn; congruence. Qed.

Lemma check_reports fuel : forall structName props path fs,
  check fuel (RStruct structName) props path = Checked fs ->
  (props <> [] ->
   forall field,
     In field (fields_of structName) ->
     extractYAMLTagName field <> EmptyString ->
     lookup (extractYAMLTagName field) props = None ->
     In (mkFailure structName (sf_Name field) (extractYAMLTagName field) path)
        fs) /\
  Forall (fun f => f_yaml f <> EmptyString /\
                   exists suffix, f_path f = path ++ suffix) fs.
Proof.
  induction fuel as [fuel IH] using lt_wf_ind.
  intros structName props path fs.
  destruct props as [|kq props].
  { destruct fuel; cbn [checkStructFieldsInSchema]; intros [= <-];
      (split; [congruence | apply Forall_nil]). }
  rewrite check_unfold.
  generalize (fields_of structName) as l. intros l. revert fs.
  induction l as [|field l IHl]; intros fs; cbn [fields_loop]; cbv zeta.
  - intros [= <-]. split; [intros _ f [] | apply Forall_nil].
  - destruct (String.eqb_spec (extractYAMLTagName field) EmptyString)
      as [He|He].
    + intros H. destruct (IHl _ H) as [Hin Hall]. split; [|assumption].
      intros Hne f [<-|Hf] Ht Hl; [congruence|]. now apply Hin.
    + destruct (lookup (extractYAMLTagName field) (kq :: props))
        as [prop|] eqn:Hlk.
      * assert (forall fs' , fields_loop (descend fields_of fuel) structName
                  (kq :: props) path l = Checked fs' ->
                (forall f, In f (field :: l) ->
                   extractYAMLTagName f <> EmptyString ->
                   lookup (extractYAMLTagName f) (kq :: props) = None ->
                   In (mkFailure structName (sf_Name f)
                         (extractYAMLTagName f) path) fs')) as Hskip.
        { intros fs' H f [<-|Hf] Ht Hl; [congruence|].
          now apply (proj1 (IHl _ H)). }
        destruct (resolveSchemaProps (sf_Type field) prop) as [[st|] cps]
          eqn:Hr.
        2:{ intros H. split; [intros _; now apply Hskip | apply (IHl _ H)]. }
        destruct cps as [|kq' cps].
        { intros H. split; [intros _; now apply Hskip | apply (IHl _ H)]. }
        intros H. apply and_then_checked in H as (fa & fb & Ha & Hb & ->).
        destruct (resolve_child _ _ _ _ Hr) as [[name ->] _].
        destruct fuel as [|fuel']; [discriminate Ha|]. cbn [descend] in Ha.
        destruct (IH fuel' ltac:(lia) _ _ _ _ Ha) as [_ Hfa].
        destruct (IHl _ Hb) as [_ Hfb].
        split.
        -- intros _ f Hf Ht Hl. apply in_or_app. right.
           now apply (Hskip _ Hb).
        -- apply Forall_app. split; [|assumption].
           eapply Forall_impl; [|exact Hfa].
           intros f [Hy [suffix Hp]]. split; [assumption|].
           rewrite Hp, prefix_app_assoc. eauto.
      * intros H. apply and_then_checked in H as (fa & fb & [= <-] & Hb & ->).
        destruct (IHl _ Hb) as [Hin Hall]. split.
        -- intros Hne f [<-|Hf] Ht Hl; [now left|].
           right. now apply Hin.
        -- constructor; [|assumption]. cbn. split; [assumption|].
           exists EmptyString. clear. induction path; cbn; congruence.
Qed.

(** X17: what the check reports.  When the property map is not empty,
    every field of the struct that has a yaml name missing from the map is
    reported with the struct, the field, the yaml name and the path; and
    every failure reported, at any depth, is for a field with a yaml name
    and carries a path that extends the one given. *)
Theorem check_reports_missing_fields (fuel : nat) (structName : string)
    (props : list (string * jsonSchemaProperty)) (path : string)
    (fs : list Failure) :
  check fuel (RStruct structName) props path = Checked fs ->
  (props <> [] ->
   forall field,
     In field (fields_of structName) ->
     extractYAMLTagName field <> EmptyString ->
     lookup (extractYAMLTagName field) props = None ->
     In (mkFailure structName (sf_Name field) (extractYAMLTagName field) path)
        fs) /\
  Forall (fun f => f_yaml f <> EmptyString /\
                   exists suffix, f_path f = path ++ suffix) fs.
Proof. apply check_reports. Qed.

End SchemaCheckFacts.

Lemma check_ends_within_schema_depth_witness :
  exists fs,
    checkStructFieldsInSchema loop_fields 2 (RStruct "LoopA") loopSchema "cfg"
      = Checked fs /\
    checkStructFieldsInSchema loop_fields 7 (RStruct "LoopA") loopSchema "cfg"
      = Checked fs.
Proof.
  apply (proj1 (check_ends_within_schema_depth loop_fields "LoopA" loopSchema
                  "cfg" 2 7 ltac:(cbn; lia) ltac:(lia))).
Defined.

Lemma check_reports_missing_fields_witness :
  In (mkFailure "LoopB" "Note" "note" "cfg.b")
     [mkFailure "LoopB" "Note" "note" "cfg.b"] /\
  Forall (fun f => f_yaml f <> EmptyString /\
                   exists suffix, f_path f = "cfg.b" ++ suffix)
    [mkFailure "LoopB" "Note" "note" "cfg.b"].
Proof.
  destruct (check_reports_missing_fields loop_fields 1 "LoopB"
              [("a", mkProperty [] None None)] "cfg.b"
              [mkFailure "LoopB" "Note" "note" "cfg.b"] eq_refl) as [Hin Hall].
  split; [|exact Hall].
  apply (Hin ltac:(discriminate) (mkStructField "Note" "note" (ROther "string"))).
  - cbn. tauto.
  - discriminate.
  - reflexivity.
Defined.
